(** * Pithon evaluator: a shallow embedding of [pithon/evaluator/evaluator.py]

    The evaluator walks a parsed syntax tree and computes values in a chain
    of environment frames.  Frames and objects are Python references, so the
    model keeps them in an explicit store and passes handles around.  Python
    exceptions (the three control-flow exceptions included) are the error
    component of a small state-and-exception monad.  Recursion depth is
    bounded by a fuel argument; running out of fuel is a separate outcome
    that no handler catches. *)

From Stdlib Require Import QArith.
From stdpp Require Import gmap strings list fin_maps.

Set Warnings "-register-all".

Local Open Scope string_scope.
Local Open Scope list_scope.

(** Handles into the store. *)
Abbreviation loc := nat (only parsing).

(** ** Syntax tree (the node classes imported from [pithon.syntax]) *)

Inductive PiStatement : Type :=
| PiNumber (value : Q)
| PiBool (value : bool)
| PiNone
| PiString (value : string)
| PiList (elements : list PiStatement)
| PiTuple (elements : list PiStatement)
| PiVariable (name : string)
| PiBinaryOperation (left : PiStatement) (operator : string) (right : PiStatement)
| PiAssignment (name : string) (value : PiStatement)
| PiIfThenElse (condition : PiStatement) (then_branch else_branch : list PiStatement)
| PiNot (operand : PiStatement)
| PiAnd (left right : PiStatement)
| PiOr (left right : PiStatement)
| PiWhile (condition : PiStatement) (body : list PiStatement)
| PiFunctionDef (fd : funcdef)
| PiReturn (value : PiStatement)
| PiFunctionCall (function : PiStatement) (args : list PiStatement)
| PiFor (var : string) (iterable : PiStatement) (body : list PiStatement)
| PiBreak
| PiContinue
| PiIn (element container : PiStatement)
| PiSubscript (collection index : PiStatement)
| PiClassDef (name : string) (methods : list funcdef)
| PiAttribute (object : PiStatement) (attr : string)
| PiAttributeAssignment (object : PiStatement) (attr : string) (value : PiStatement)
| PiUnknown (type_repr : string)
    (* a node of a class the dispatcher does not list (its final [else]) *)
with funcdef : Type :=
| FunctionDef (name : string) (arg_names : list string)
              (vararg : option string) (body : list PiStatement).

Definition fd_name (f : funcdef) : string :=
  match f with FunctionDef n _ _ _ => n end.
Definition fd_arg_names (f : funcdef) : list string :=
  match f with FunctionDef _ a _ _ => a end.
Definition fd_vararg (f : funcdef) : option string :=
  match f with FunctionDef _ _ v _ => v end.
Definition fd_body (f : funcdef) : list PiStatement :=
  match f with FunctionDef _ _ _ b => b end.

(** ** Runtime values (the classes imported from [pithon.evaluator.envvalue]) *)

(** A function definition paired with the frame that was current when it
    was executed: the two fields of [VFunctionClosure]. *)
Record closure : Type := Closure { funcdef_of : funcdef; closure_env : loc }.

(** Modelled from the spec: the value classes of [pithon.evaluator.envvalue],
    which the evaluator imports.  Section 3 of the specification lists the
    variants: a method closure adds the receiver to a closure, a class holds
    its method table, an object is a reference to a store cell with its
    class and attributes.  Host callables of the primitive table are
    referred to by name. *)
Inductive EnvValue : Type :=
| VNumber (value : Q)
| VBool (value : bool)
| VString (value : string)
| VNone
| VList (value : list EnvValue)
| VTuple (value : list EnvValue)
| VFunctionClosure (c : closure)
| VMethodClosure (function : closure) (instance : loc)
| VClassDef (name : string) (methods : gmap string closure)
| VObject (ref : loc)
| VPrimitive (name : string).

(** Python class tags, for the [isinstance] tests of the evaluator. *)
Inductive vtype : Type :=
| TNumber | TBool | TString | TNone | TList | TTuple
| TFunctionClosure | TMethodClosure | TClassDef | TObject | TPrimitive.

Definition type_of (v : EnvValue) : vtype :=
  match v with
  | VNumber _ => TNumber | VBool _ => TBool | VString _ => TString
  | VNone => TNone | VList _ => TList | VTuple _ => TTuple
  | VFunctionClosure _ => TFunctionClosure
  | VMethodClosure _ _ => TMethodClosure
  | VClassDef _ _ => TClassDef | VObject _ => TObject
  | VPrimitive _ => TPrimitive
  end.

Definition type_name (t : vtype) : string :=
  match t with
  | TNumber => "VNumber" | TBool => "VBool" | TString => "VString"
  | TNone => "VNone" | TList => "VList" | TTuple => "VTuple"
  | TFunctionClosure => "VFunctionClosure"
  | TMethodClosure => "VMethodClosure"
  | TClassDef => "VClassDef" | TObject => "VObject"
  | TPrimitive => "function"
  end.

Global Instance vtype_eq_dec : EqDecision vtype.
Proof. solve_decision. Defined.

(** ** Exceptions *)

(** The Python exception classes the evaluator raises or lets through.
    [NameLookupError] stands for what [EnvFrame.lookup] raises on an unbound
    name (the specification's [UnboundName]; its class is declared with
    [EnvFrame]). *)
Inductive exn : Type :=
| TypeError (msg : string)
| ZeroDivisionError (msg : string)
| ValueError (msg : string)
| RuntimeError (msg : string)
| AttributeError (msg : string)
| IndexError (msg : string)
| NameLookupError (name : string)
| ReturnException (value : EnvValue)
| BreakException
| ContinueException.

(** ** The store: environment frames and object cells *)

(** Modelled from the spec: [EnvFrame] (module [pithon.evaluator.envframe] is
    not part of the evaluator module).  A frame owns a mapping from names to
    values and refers to its parent frame, if any. *)
Record EnvFrame : Type := Frame {
  vars : gmap string EnvValue;
  parent : option loc
}.

(** The cell behind a [VObject]: its class (shared, immutable) and its own
    attribute mapping. *)
Record ObjectCell : Type := Cell {
  class_name : string;
  class_methods : gmap string closure;
  attributes : gmap string EnvValue
}.

Record state : Type := State {
  frames : list EnvFrame;
  objects : list ObjectCell
}.

(** ** Outcomes and the evaluation monad *)

Inductive outcome (A : Type) : Type :=
| Val (a : A)
| Exn (e : exn)
| OutOfFuel.
Arguments Val {A} a.
Arguments Exn {A} e.
Arguments OutOfFuel {A}.

Definition M (A : Type) : Type := state -> state * outcome A.

Definition ret {A} (a : A) : M A := fun s => (s, Val a).
Definition raise {A} (e : exn) : M A := fun s => (s, Exn e).
Definition timeout {A} : M A := fun s => (s, OutOfFuel).

Definition bind {A B} (m : M A) (k : A -> M B) : M B :=
  fun s =>
    match m s with
    | (s', Val a) => k a s'
    | (s', Exn e) => (s', Exn e)
    | (s', OutOfFuel) => (s', OutOfFuel)
    end.

Notation "x <- m ;; k" := (bind m (fun x => k))
  (at level 100, m at next level, right associativity).
Notation "'exec' m ;; k" := (bind m (fun _ => k))
  (at level 100, m at next level, right associativity).

(** [try m except h]: [h e = Some k] when the handler catches [e]. *)
Definition try_except {A} (m : M A) (h : exn -> option (M A)) : M A :=
  fun s =>
    match m s with
    | (s', Exn e) => match h e with Some k => k s' | None => (s', Exn e) end
    | r => r
    end.

(** The wrapper around the bodies of [evaluate] and [evaluate_stmt]:
    [except (TypeError, ZeroDivisionError, ValueError) as e:
       raise RuntimeError(str(e))]. *)
Definition reraise (e : exn) : exn :=
  match e with
  | TypeError msg | ZeroDivisionError msg | ValueError msg => RuntimeError msg
  | _ => e
  end.

Definition as_runtime_error {A} (m : M A) : M A :=
  fun s =>
    match m s with
    | (s', Exn e) => (s', Exn (reraise e))
    | r => r
    end.

(** ** Environment frames: [EnvFrame(parent=...)], [insert], [lookup] *)

(** Modelled from the spec: the constructor [EnvFrame(parent=p)] of the
    [EnvFrame] class, "a new empty frame chained to the parent"; its handle
    is the next free index of the frame store. *)
Definition EnvFrame_new (p : option loc) : M loc :=
  fun s =>
    (State (frames s ++ [Frame ∅ p]) (objects s), Val (length (frames s))).

(** Modelled from the spec: the method [EnvFrame.insert], which "always
    writes into the current frame (creating or overwriting a binding there),
    never into an ancestor". *)
Definition insert_var (name : string) (v : EnvValue) (f : EnvFrame) : EnvFrame :=
  Frame (<[name := v]> (vars f)) (parent f).

(** [insert(env, name, value)]: [env.insert(name, value)] on the frame behind
    the handle. *)
Definition insert (env : loc) (name : string) (v : EnvValue) : M unit :=
  fun s =>
    (State (alter (insert_var name v) env (frames s)) (objects s), Val tt).

(** Modelled from the spec: the method [EnvFrame.lookup], which "walks from
    the current frame to the root, returning the first match or failing".
    A parent is always allocated before its children, so a chain is never
    longer than the store; [n] bounds the walk. *)
Fixpoint lookup_from (n : nat) (fs : list EnvFrame) (env : loc) (name : string)
  : option EnvValue :=
  match fs !! env with
  | None => None
  | Some f =>
      match vars f !! name with
      | Some v => Some v
      | None =>
          match parent f, n with
          | Some p, S n' => lookup_from n' fs p name
          | _, _ => None
          end
      end
  end.

(** [lookup(env, name)]: [env.lookup(name)]. *)
Definition lookup (env : loc) (name : string) : M EnvValue :=
  fun s =>
    match lookup_from (length (frames s)) (frames s) env name with
    | Some v => (s, Val v)
    | None => (s, Exn (NameLookupError name))
    end.

(** ** Object cells *)

(** [VObject(class_def=c, attributes={})] *)
Definition VObject_new (cname : string) (methods : gmap string closure) : M loc :=
  fun s =>
    (State (frames s) (objects s ++ [Cell cname methods ∅]),
     Val (length (objects s))).

(** Reading the cell behind an object.  Every [VObject] the evaluator
    builds refers to an allocated cell; the failure branch is there for
    totality only. *)
Definition get_object (o : loc) : M ObjectCell :=
  fun s =>
    match objects s !! o with
    | Some c => (s, Val c)
    | None => (s, Exn (RuntimeError "dangling object reference"))
    end.

(** [obj.attributes[attr] = value] *)
Definition set_attribute (o : loc) (attr : string) (v : EnvValue) : M unit :=
  fun s =>
    (State (frames s)
       (alter (fun c => Cell (class_name c) (class_methods c)
                             (<[attr := v]> (attributes c))) o (objects s)),
     Val tt).

(** ** Host-level operations on values *)

(** [int(x)] on a number: truncation toward zero. *)
Definition int_of (q : Q) : Z := Z.quot (Qnum q) (Zpos (Qden q)).

(** Python's [seq[i]] for an integer [i]: positions [0 .. n-1] from the
    front, [-n .. -1] from the end, [IndexError] elsewhere. *)
Definition py_index {A} (l : list A) (i : Z) : option A :=
  let n := Z.of_nat (length l) in
  if (0 <=? i)%Z && (i <? n)%Z then l !! Z.to_nat i
  else if (- n <=? i)%Z && (i <? 0)%Z then l !! Z.to_nat (n + i)
  else None.

(** Python's [needle in hay] on strings: a substring test. *)
Fixpoint str_contains (needle hay : string) : bool :=
  String.prefix needle hay ||
  match hay with
  | EmptyString => false
  | String _ rest => str_contains needle rest
  end.

(** Truthiness of the [value] field of the operands [not]/[and]/[or]
    accept. *)
Definition truthy (v : EnvValue) : bool :=
  match v with
  | VBool b => b
  | VNumber q => negb (Qeq_bool q 0)
  | VString s => negb (String.eqb s "")
  | VNone => false
  | VList l | VTuple l => match l with [] => false | _ => true end
  | _ => false
  end.

(** *** Structural equality *)

(** Equality of syntax trees, node by node. *)
Fixpoint stmt_eqb (a b : PiStatement) {struct a} : bool :=
  let fix all2 (xs ys : list PiStatement) {struct xs} : bool :=
    match xs, ys with
    | [], [] => true
    | x :: xs', y :: ys' => stmt_eqb x y && all2 xs' ys'
    | _, _ => false
    end in
  let fix all2f (xs ys : list funcdef) {struct xs} : bool :=
    match xs, ys with
    | [], [] => true
    | x :: xs', y :: ys' => funcdef_eqb x y && all2f xs' ys'
    | _, _ => false
    end in
  match a, b with
  | PiNumber x, PiNumber y => Qeq_bool x y
  | PiBool x, PiBool y => Bool.eqb x y
  | PiNone, PiNone => true
  | PiString x, PiString y => String.eqb x y
  | PiList xs, PiList ys => all2 xs ys
  | PiTuple xs, PiTuple ys => all2 xs ys
  | PiVariable x, PiVariable y => String.eqb x y
  | PiBinaryOperation l1 o1 r1, PiBinaryOperation l2 o2 r2 =>
      stmt_eqb l1 l2 && String.eqb o1 o2 && stmt_eqb r1 r2
  | PiAssignment n1 v1, PiAssignment n2 v2 => String.eqb n1 n2 && stmt_eqb v1 v2
  | PiIfThenElse c1 t1 e1, PiIfThenElse c2 t2 e2 =>
      stmt_eqb c1 c2 && all2 t1 t2 && all2 e1 e2
  | PiNot x, PiNot y => stmt_eqb x y
  | PiAnd l1 r1, PiAnd l2 r2 => stmt_eqb l1 l2 && stmt_eqb r1 r2
  | PiOr l1 r1, PiOr l2 r2 => stmt_eqb l1 l2 && stmt_eqb r1 r2
  | PiWhile c1 b1, PiWhile c2 b2 => stmt_eqb c1 c2 && all2 b1 b2
  | PiFunctionDef f, PiFunctionDef g => funcdef_eqb f g
  | PiReturn x, PiReturn y => stmt_eqb x y
  | PiFunctionCall f1 a1, PiFunctionCall f2 a2 => stmt_eqb f1 f2 && all2 a1 a2
  | PiFor v1 i1 b1, PiFor v2 i2 b2 =>
      String.eqb v1 v2 && stmt_eqb i1 i2 && all2 b1 b2
  | PiBreak, PiBreak => true
  | PiContinue, PiContinue => true
  | PiIn e1 c1, PiIn e2 c2 => stmt_eqb e1 e2 && stmt_eqb c1 c2
  | PiSubscript c1 i1, PiSubscript c2 i2 => stmt_eqb c1 c2 && stmt_eqb i1 i2
  | PiClassDef n1 m1, PiClassDef n2 m2 => String.eqb n1 n2 && all2f m1 m2
  | PiAttribute o1 a1, PiAttribute o2 a2 => stmt_eqb o1 o2 && String.eqb a1 a2
  | PiAttributeAssignment o1 a1 v1, PiAttributeAssignment o2 a2 v2 =>
      stmt_eqb o1 o2 && String.eqb a1 a2 && stmt_eqb v1 v2
  | PiUnknown x, PiUnknown y => String.eqb x y
  | _, _ => false
  end
with funcdef_eqb (f g : funcdef) {struct f} : bool :=
  let fix all2 (xs ys : list PiStatement) {struct xs} : bool :=
    match xs, ys with
    | [], [] => true
    | x :: xs', y :: ys' => stmt_eqb x y && all2 xs' ys'
    | _, _ => false
    end in
  match f, g with
  | FunctionDef n1 a1 v1 b1, FunctionDef n2 a2 v2 b2 =>
      String.eqb n1 n2 && bool_decide (a1 = a2) && bool_decide (v1 = v2)
      && all2 b1 b2
  end.

Definition closure_eqb (c d : closure) : bool :=
  funcdef_eqb (funcdef_of c) (funcdef_of d)
  && Nat.eqb (closure_env c) (closure_env d).

Definition methods_eqb (m1 m2 : gmap string closure) : bool :=
  bool_decide (dom m1 = dom m2)
  && forallb (fun kc => match m2 !! kc.1 with
                        | Some d => closure_eqb kc.2 d
                        | None => false
                        end) (map_to_list m1).

(** Modelled from the spec: equality of values, which is declared with the
    value classes.  Section 4.1 fixes it for membership tests: structural
    equality.  Numbers compare as numbers, sequences element by element,
    closures by definition and captured frame, objects by reference. *)
Fixpoint value_eqb (a b : EnvValue) {struct a} : bool :=
  let fix all2 (xs ys : list EnvValue) {struct xs} : bool :=
    match xs, ys with
    | [], [] => true
    | x :: xs', y :: ys' => value_eqb x y && all2 xs' ys'
    | _, _ => false
    end in
  match a, b with
  | VNumber x, VNumber y => Qeq_bool x y
  | VBool x, VBool y => Bool.eqb x y
  | VString x, VString y => String.eqb x y
  | VNone, VNone => true
  | VList xs, VList ys => all2 xs ys
  | VTuple xs, VTuple ys => all2 xs ys
  | VFunctionClosure c, VFunctionClosure d => closure_eqb c d
  | VMethodClosure c i, VMethodClosure d j => closure_eqb c d && Nat.eqb i j
  | VClassDef n m, VClassDef n' m' => String.eqb n n' && methods_eqb m m'
  | VObject o, VObject o' => Nat.eqb o o'
  | VPrimitive p, VPrimitive p' => String.eqb p p'
  | _, _ => false
  end.

(** Python's [x in seq] on a list or tuple of values. *)
Definition py_in (x : EnvValue) (l : list EnvValue) : bool :=
  existsb (fun e => value_eqb x e) l.

(** ** The host side: primitive table and [check_type] *)

(** Modelled from the spec: what the evaluator imports from
    [pithon.evaluator.primitive].  The table of primitive callables, merged
    into the root frame: each takes the ordered argument list and enforces
    its own arity and type rules.  The text of the type error of
    [check_type] is left open. *)
Record Host : Type := {
  primitive_names : list string;
  call_primitive : string -> list EnvValue -> M EnvValue;
  check_type_msg : vtype -> EnvValue -> string
}.

(** ** Error messages of the evaluator, as written in the source *)
Definition msg_for_iterable := "La boucle for attend une liste ou un tuple.".
Definition msg_subscript :=
  "L'indexation n'est supportée que pour les listes, tuples et chaînes.".
Definition msg_in := "'in' n'est supporté que pour les listes et chaînes.".
Definition msg_not_callable := "Tentative d'appel d'un objet non-fonction.".
Definition msg_missing_function := "Argument manquant pour la fonction.".
Definition msg_too_many_function := "Trop d'arguments pour la fonction.".
Definition msg_self := "La première argument d'une méthode doit être 'self'.".
Definition msg_missing_method (arg_name : string) :=
  ("Argument manquant '" ++ arg_name ++ "' pour la méthode.")%string.
Definition msg_too_many_method := "Trop d'arguments pour la méthode.".
Definition msg_attributes := "Seuls les objets peuvent avoir des attributs.".
Definition msg_no_attribute (attr : string) :=
  ("L'objet n'a pas d'attribut '" ++ attr ++ "'")%string.
Definition msg_unsupported (type_repr : string) :=
  ("Type de nœud non supporté : " ++ type_repr)%string.
Definition msg_andor (t : vtype) :=
  ("Type non supporté pour l'opérateur 'and': " ++ type_name t)%string.

Section Evaluator.
Context (host : Host).

(** [initial_env()]: the root frame, holding the primitives. *)
Definition initial_state : state :=
  State [Frame (list_to_map ((fun n => (n, VPrimitive n)) <$> primitive_names host))
               None] [].
Definition initial_env : loc := 0.

(** Modelled from the spec: [check_type] of [pithon.evaluator.primitive],
    which hands back a value of the requested class and fails with a type
    error ([TypeMismatch]) on any other. *)
Definition check_type (v : EnvValue) (t : vtype) : M EnvValue :=
  if bool_decide (type_of v = t) then ret v
  else raise (TypeError (check_type_msg host t v)).

Definition _check_valid_piandor_type (obj : EnvValue) : M unit :=
  match type_of obj with
  | TBool | TNumber | TString | TNone | TList | TTuple => ret tt
  | t => raise (TypeError (msg_andor t))
  end.

(** [seq[i]], raising [IndexError] outside the accepted positions. *)
Definition subscript_of {A} (l : list A) (i : Z) (kind : string) : M A :=
  match py_index l i with
  | Some x => ret x
  | None => raise (IndexError (kind ++ " index out of range")%string)
  end.

Definition number_value (v : EnvValue) : Q :=
  match v with VNumber q => q | _ => 0 end.

(** What a loop does with the outcome of one run of its body: [Some v]
    goes on with [last_value = v], [None] leaves the loop. *)
Definition loop_body (m : M EnvValue) (last_value : EnvValue)
  : M (option EnvValue) :=
  try_except (v <- m;; ret (Some v))
    (fun e => match e with
              | BreakException => Some (ret None)
              | ContinueException => Some (ret (Some last_value))
              | _ => None
              end).

(** [except ReturnException as ret: return ret.value] *)
Definition catch_return (m : M EnvValue) : M EnvValue :=
  try_except m
    (fun e => match e with
              | ReturnException v => Some (ret v)
              | _ => None
              end).

(** The functions below are the bodies of the evaluator's functions, with
    the recursive calls to [evaluate_stmt] going through [ev]; [fuel] bounds
    the number of iterations of a [while] loop. *)
Section Bodies.
Variable ev : PiStatement -> loc -> M EnvValue.
Variable fuel : nat.

(** [[evaluate_stmt(e, env) for e in elements]] *)
Fixpoint eval_elements (es : list PiStatement) (env : loc) : M (list EnvValue) :=
  match es with
  | [] => ret []
  | e :: es' =>
      v <- ev e env;;
      vs <- eval_elements es' env;;
      ret (v :: vs)
  end.

(** [for stmt in stmts: last_value = evaluate_stmt(stmt, env)] *)
Fixpoint run_stmts (stmts : list PiStatement) (env : loc) (last_value : EnvValue)
  : M EnvValue :=
  match stmts with
  | [] => ret last_value
  | stmt :: rest =>
      v <- ev stmt env;;
      run_stmts rest env v
  end.

(** [evaluate]: a statement list ([inl]) or a single statement ([inr]). *)
Definition evaluate (node : list PiStatement + PiStatement) (env : loc)
  : M EnvValue :=
  as_runtime_error
    match node with
    | inl stmts => run_stmts stmts env VNone
    | inr stmt => ev stmt env
    end.

Fixpoint while_loop (n : nat) (condition : PiStatement)
    (body : list PiStatement) (env : loc) (last_value : EnvValue)
  : M EnvValue :=
  match n with
  | O => timeout
  | S n' =>
      cond <- ev condition env;;
      cond <- check_type cond TBool;;
      if negb (truthy cond) then ret last_value
      else
        r <- loop_body (evaluate (inl body) env) last_value;;
        match r with
        | None => ret last_value
        | Some v => while_loop n' condition body env v
        end
  end.

Definition _evaluate_while (condition : PiStatement) (body : list PiStatement)
    (env : loc) : M EnvValue :=
  while_loop fuel condition body env VNone.

Fixpoint for_loop (items : list EnvValue) (var : string)
    (body : list PiStatement) (env : loc) (last_value : EnvValue)
  : M EnvValue :=
  match items with
  | [] => ret last_value
  | item :: rest =>
      exec insert env var item;;
      r <- loop_body (evaluate (inl body) env) last_value;;
      match r with
      | None => ret last_value
      | Some v => for_loop rest var body env v
      end
  end.

Definition _evaluate_for (var : string) (iterable : PiStatement)
    (body : list PiStatement) (env : loc) : M EnvValue :=
  iterable_val <- ev iterable env;;
  match iterable_val with
  | VList items | VTuple items => for_loop items var body env VNone
  | _ => raise (TypeError msg_for_iterable)
  end.

Definition _evaluate_subscript (collection index : PiStatement) (env : loc)
  : M EnvValue :=
  collection <- ev collection env;;
  index <- ev index env;;
  match collection with
  | VList l =>
      idx <- check_type index TNumber;;
      subscript_of l (int_of (number_value idx)) "list"
  | VTuple l =>
      idx <- check_type index TNumber;;
      subscript_of l (int_of (number_value idx)) "tuple"
  | VString s =>
      idx <- check_type index TNumber;;
      c <- subscript_of (String.list_ascii_of_string s)
             (int_of (number_value idx)) "string";;
      ret (VString (String c EmptyString))
  | _ => raise (TypeError msg_subscript)
  end.

Definition _evaluate_in (element container : PiStatement) (env : loc)
  : M EnvValue :=
  container <- ev container env;;
  element <- ev element env;;
  match container with
  | VList l | VTuple l => ret (VBool (py_in element l))
  | VString hay =>
      match element with
      | VString needle => ret (VBool (str_contains needle hay))
      | _ => ret (VBool false)
      end
  | _ => raise (TypeError msg_in)
  end.

(** [for i, arg_name in enumerate(arg_names)]: bind [args[i]] or raise. *)
Fixpoint bind_params (call_env : loc) (arg_names : list string) (i : nat)
    (args : list EnvValue) (missing : string -> string) : M unit :=
  match arg_names with
  | [] => ret tt
  | arg_name :: rest =>
      match args !! i with
      | Some a =>
          exec insert call_env arg_name a;;
          bind_params call_env rest (S i) args missing
      | None => raise (TypeError (missing arg_name))
      end
  end.

(** [if funcdef.vararg]: a name that is present and not empty. *)
Definition vararg_name (f : funcdef) : option string :=
  match fd_vararg f with
  | Some v => if String.eqb v "" then None else Some v
  | None => None
  end.

(** The first half of [_execute_function_call]: the frame of the call, with
    the parameters bound. *)
Definition function_call_env (func_val : closure) (args : list EnvValue)
  : M loc :=
  let funcdef := funcdef_of func_val in
  call_env <- EnvFrame_new (Some (closure_env func_val));;
  exec bind_params call_env (fd_arg_names funcdef) 0 args
         (fun _ => msg_missing_function);;
  exec match vararg_name funcdef with
       | Some vararg =>
           insert call_env vararg
             (VList (drop (length (fd_arg_names funcdef)) args))
       | None =>
           if Nat.ltb (length (fd_arg_names funcdef)) (length args)
           then raise (TypeError msg_too_many_function)
           else ret tt
       end;;
  ret call_env.

Definition _execute_function_call (func_val : closure) (args : list EnvValue)
    (env : loc) : M EnvValue :=
  call_env <- function_call_env func_val args;;
  catch_return (run_stmts (fd_body (funcdef_of func_val)) call_env VNone).

(** The first half of [_execute_method_call]: the frame of the call, with
    [self] and the parameters bound. *)
Definition method_call_env (function : closure) (instance : loc)
    (args : list EnvValue) : M loc :=
  let funcdef := funcdef_of function in
  call_env <- EnvFrame_new (Some (closure_env function));;
  match fd_arg_names funcdef with
  | first :: arg_names =>
      if negb (String.eqb first "self") then raise (TypeError msg_self)
      else
        exec insert call_env "self" (VObject instance);;
        exec bind_params call_env arg_names 0 args msg_missing_method;;
        exec (if Nat.ltb (length arg_names) (length args)
              then raise (TypeError msg_too_many_method)
              else ret tt);;
        ret call_env
  | [] => raise (TypeError msg_self)
  end.

Definition _execute_method_call (function : closure) (instance : loc)
    (args : list EnvValue) (env : loc) : M EnvValue :=
  let funcdef := funcdef_of function in
  call_env <- method_call_env function instance args;;
  catch_return
    (result <- run_stmts (fd_body funcdef) call_env VNone;;
     if String.eqb (fd_name funcdef) "__init__" then ret VNone
     else ret result).

Definition _evaluate_function_call (function : PiStatement)
    (args : list PiStatement) (env : loc) : M EnvValue :=
  func_val <- ev function env;;
  args <- eval_elements args env;;
  match func_val with
  | VClassDef name methods =>
      instance <- VObject_new name methods;;
      exec match methods !! "__init__" with
           | Some init_method =>
               exec _execute_method_call init_method instance args env;;
               ret tt
           | None => ret tt
           end;;
      ret (VObject instance)
  | VMethodClosure function instance =>
      _execute_method_call function instance args env
  | VPrimitive name => call_primitive host name args
  | VFunctionClosure c => _execute_function_call c args env
  | _ => raise (TypeError msg_not_callable)
  end.

(** The [isinstance] chain of [evaluate_stmt], inside its [try]. *)
Definition dispatch (node : PiStatement) (env : loc) : M EnvValue :=
  match node with
  | PiNumber value => ret (VNumber value)
  | PiBool value => ret (VBool value)
  | PiNone => ret VNone
  | PiString value => ret (VString value)
  | PiList elements =>
      elements <- eval_elements elements env;;
      ret (VList elements)
  | PiTuple elements =>
      elements <- eval_elements elements env;;
      ret (VTuple elements)
  | PiVariable name => lookup env name
  | PiBinaryOperation lhs operator rhs =>
      ev (PiFunctionCall (PiVariable operator) [lhs; rhs]) env
  | PiAssignment name value =>
      value <- ev value env;;
      exec insert env name value;;
      ret value
  | PiIfThenElse condition then_branch else_branch =>
      cond <- ev condition env;;
      cond <- check_type cond TBool;;
      evaluate (inl (if truthy cond then then_branch else else_branch)) env
  | PiNot operand =>
      operand <- ev operand env;;
      exec _check_valid_piandor_type operand;;
      ret (VBool (negb (truthy operand)))
  | PiAnd lhs rhs =>
      lhs <- ev lhs env;;
      exec _check_valid_piandor_type lhs;;
      if negb (truthy lhs) then ret lhs
      else
        rhs <- ev rhs env;;
        exec _check_valid_piandor_type rhs;;
        ret rhs
  | PiOr lhs rhs =>
      lhs <- ev lhs env;;
      exec _check_valid_piandor_type lhs;;
      if truthy lhs then ret lhs
      else
        rhs <- ev rhs env;;
        exec _check_valid_piandor_type rhs;;
        ret rhs
  | PiWhile condition body => _evaluate_while condition body env
  | PiFunctionDef fd =>
      exec insert env (fd_name fd) (VFunctionClosure (Closure fd env));;
      ret VNone
  | PiReturn value =>
      value <- ev value env;;
      raise (ReturnException value)
  | PiFunctionCall function args => _evaluate_function_call function args env
  | PiFor var iterable body => _evaluate_for var iterable body env
  | PiBreak => raise BreakException
  | PiContinue => raise ContinueException
  | PiIn element container => _evaluate_in element container env
  | PiSubscript collection index => _evaluate_subscript collection index env
  | PiClassDef name methods =>
      let methods :=
        foldl (fun m method => <[fd_name method := Closure method env]> m)
              (∅ : gmap string closure) methods in
      exec insert env name (VClassDef name methods);;
      ret VNone
  | PiAttribute object attr =>
      obj <- ev object env;;
      match obj with
      | VObject o =>
          cell <- get_object o;;
          match attributes cell !! attr with
          | Some v => ret v
          | None =>
              match class_methods cell !! attr with
              | Some method => ret (VMethodClosure method o)
              | None => raise (AttributeError (msg_no_attribute attr))
              end
          end
      | _ => raise (TypeError msg_attributes)
      end
  | PiAttributeAssignment object attr value =>
      obj <- ev object env;;
      match obj with
      | VObject o =>
          value <- ev value env;;
          exec set_attribute o attr value;;
          ret value
      | _ => raise (TypeError msg_attributes)
      end
  | PiUnknown type_repr => raise (TypeError (msg_unsupported type_repr))
  end.

End Bodies.

(** [evaluate_stmt]: the dispatch inside the error wrapper.  Every nested
    call of the evaluator has one unit of fuel less. *)
Fixpoint evaluate_stmt (fuel : nat) (node : PiStatement) (env : loc)
  : M EnvValue :=
  match fuel with
  | O => timeout
  | S k => as_runtime_error (dispatch (evaluate_stmt k) k node env)
  end.

(** [evaluate] on a program, as the entry point calls it. *)
Definition evaluate_program (fuel : nat) (node : list PiStatement) (env : loc)
  : M EnvValue :=
  evaluate (evaluate_stmt fuel) (inl node) env.

End Evaluator.

(** ** Definitions used by the statements *)


(** What [_evaluate_subscript] does once collection and index are values. *)
(** A small host for running examples: one primitive, division, which
    rejects a zero divisor the way the host language does. *)
Definition sample_divide (args : list EnvValue) : M EnvValue :=
  match args with
  | [VNumber a; VNumber b] =>
      if Qeq_bool b 0 then raise (ZeroDivisionError "division by zero")
      else ret (VNumber (a / b))
  | _ => raise (TypeError "unsupported operand")
  end.

Definition sample_host : Host := {|
  primitive_names := ["/"];
  call_primitive := fun name args =>
    if String.eqb name "/" then sample_divide args
    else raise (TypeError "unknown primitive");
  check_type_msg := fun t v => type_name t
|}.

(** The frame that results from binding parameters to values one by one,
    in order. *)
Definition bind_all (names : list string) (vals : list EnvValue)
    (f : EnvFrame) : EnvFrame :=
  foldl (fun f p => insert_var p.1 p.2 f) f (zip names vals).

(** The store with one more frame on top. *)
Definition push_frame (s : state) (f : EnvFrame) : state :=
  State (frames s ++ [f]) (objects s).


(** The frame of a function call when the arguments fit the declaration. *)
Definition function_frame (c : closure) (args : list EnvValue) : EnvFrame :=
  let names := fd_arg_names (funcdef_of c) in
  let bound := bind_all names args (Frame ∅ (Some (closure_env c))) in
  match vararg_name (funcdef_of c) with
  | Some vararg => insert_var vararg (VList (drop (length names) args)) bound
  | None => bound
  end.

(** Two parameters, and the same with a variadic third one. *)
Definition two_params : closure :=
  Closure (FunctionDef "f" ["a"; "b"] None [PiVariable "a"]) 0.
Definition two_params_variadic : closure :=
  Closure (FunctionDef "f" ["a"; "b"] (Some "rest") [PiVariable "rest"]) 0.

(** A function without parameters whose body returns the variable [y]. *)
Definition reader (f y : string) : funcdef :=
  FunctionDef f [] None [PiReturn (PiVariable y)].

(** [y = 1; def f(): return y; y = 2; f()] *)
Definition rebinding_program : list PiStatement :=
  [PiAssignment "y" (PiNumber 1);
   PiFunctionDef (reader "f" "y");
   PiAssignment "y" (PiNumber 2);
   PiFunctionCall (PiVariable "f") []].

(** [y = 1; def f(): return y; def g(): y = 99; return f()
    g()]: the caller of [f] has its own [y]. *)
Definition shadowing_program : list PiStatement :=
  [PiAssignment "y" (PiNumber 1);
   PiFunctionDef (reader "f" "y");
   PiFunctionDef
     (FunctionDef "g" [] None
        [PiAssignment "y" (PiNumber 99);
         PiReturn (PiFunctionCall (PiVariable "f") [])]);
   PiFunctionCall (PiVariable "g") []].

(** The store with one more object cell, of the given class and without
    attributes. *)
Definition push_object (s : state) (name : string)
    (methods : gmap string closure) : state :=
  State (frames s) (objects s ++ [Cell name methods ∅]).

(** [class C: def m(self): 7] as a value, and two number arguments. *)
Definition plain_class : EnvValue :=
  VClassDef "C"
    {["m" := Closure (FunctionDef "m" ["self"] None [PiNumber 7]) 0]}.

(** The frame of a method call when the arguments fit the declaration. *)
Definition method_frame (function : closure) (instance : loc)
    (args : list EnvValue) : EnvFrame :=
  bind_all (tail (fd_arg_names (funcdef_of function))) args
    (insert_var "self" (VObject instance)
       (Frame ∅ (Some (closure_env function)))).

(** The reading of "the initializer's result is forced to the None-value
    regardless of any Returning payload": whatever a method call of a
    function named [__init__] returns is the None-value. *)
Definition initializer_result_forced_to_none : Prop :=
  forall host k function instance args env s s' v,
    fd_name (funcdef_of function) = "__init__" ->
    _execute_method_call (evaluate_stmt host k) function instance args env s
    = (s', Val v) ->
    v = VNone.

(** [def __init__(self): return 5] *)
Definition returning_init : closure :=
  Closure (FunctionDef "__init__" ["self"] None [PiReturn (PiNumber 5)]) 0.

(** [class C] with that initializer, bound in the root frame. *)
Definition returning_init_class : EnvValue :=
  VClassDef "C" {["__init__" := returning_init]}.
Definition returning_init_state : state :=
  State [Frame {["C" := returning_init_class]} None] [].




(** [class C: def m(self, *rest): rest
    o = C()
    o.m(1)] *)
Definition variadic_method_program : list PiStatement :=
  [PiClassDef "C" [FunctionDef "m" ["self"] (Some "rest") [PiVariable "rest"]];
   PiAssignment "o" (PiFunctionCall (PiVariable "C") []);
   PiFunctionCall (PiAttribute (PiVariable "o") "m") [PiNumber 1]].

(** The same declaration as a function, [def m(self, *rest): rest], called
    with two arguments. *)
Definition variadic_function : closure :=
  Closure (FunctionDef "m" ["self"] (Some "rest") [PiVariable "rest"]) 0.

(** The reading of "the core re-surfaces every error kind as one uniform
    evaluation failure": whenever [evaluate] fails, it fails with the
    runtime error. *)
Definition failures_are_uniform : Prop :=
  forall host fuel program env s s' e,
    evaluate_program host fuel program env s = (s', Exn e) ->
    exists msg, e = RuntimeError msg.

(** [def f(a, b): a] bound in the root frame, and a class whose method
    does not start with [self]. *)
Definition arity_state : state :=
  State [Frame {["f" := VFunctionClosure two_params;
                 "/" := VPrimitive "/";
                 "C" := VClassDef "C"
                          {["m" := Closure (FunctionDef "m" ["x"] None []) 0]}]}
               None] [].

(** [m'] does whatever [m] does, wherever [m] does not run out of fuel. *)
Definition refines {A} (m m' : M A) : Prop :=
  forall s s' r, m s = (s', r) -> r <> OutOfFuel -> m' s = (s', r).


(** ** Definitions used by the further properties *)

(** The store after [insert(env, name, v)]. *)
Definition bind_in (s : state) (env : loc) (name : string) (v : EnvValue)
  : state :=
  State (alter (insert_var name v) env (frames s)) (objects s).

(** The kinds of operands [not], [and] and [or] accept. *)
Definition andor_operand (v : EnvValue) : bool :=
  match type_of v with
  | TBool | TNumber | TString | TNone | TList | TTuple => true
  | _ => false
  end.



(** The method table a class definition builds in the frame [env]: the
    dictionary comprehension over the declared methods, in order. *)
Definition class_table (env : loc) (methods : list funcdef)
  : gmap string closure :=
  foldl (fun m method => <[fd_name method := Closure method env]> m)
        (∅ : gmap string closure) methods.

(** The store after [obj.attributes[attr] = v] on the object [o]. *)
Definition set_in (s : state) (o : loc) (attr : string) (v : EnvValue)
  : state :=
  State (frames s)
    (alter (fun c => Cell (class_name c) (class_methods c)
                          (<[attr := v]> (attributes c))) o (objects s)).

(** An object of a class with a method [m], holding an attribute [m]. *)
Definition shadowing_object_state : state :=
  State [Frame {["o" := VObject 0]} None]
        [Cell "C" {["m" := Closure (FunctionDef "m" ["self"] None []) 0]}
              {["m" := VNumber 1]}].


(** A frame after more evaluation: the same parent, no binding lost. *)
Definition frame_kept (f f' : EnvFrame) : Prop :=
  parent f' = parent f /\ dom (vars f) ⊆ dom (vars f').

(** An object after more evaluation: the same class, no attribute lost. *)
Definition cell_kept (c c' : ObjectCell) : Prop :=
  class_name c' = class_name c /\ class_methods c' = class_methods c
  /\ dom (attributes c) ⊆ dom (attributes c').

(** The store [s'] has every frame and every object of [s], at the same
    handle. *)
Definition store_extends (s s' : state) : Prop :=
  (forall l f, frames s !! l = Some f ->
     exists f', frames s' !! l = Some f' /\ frame_kept f f')
  /\ (forall o c, objects s !! o = Some c ->
        exists c', objects s' !! o = Some c' /\ cell_kept c c').

(** A computation that only ever extends the store. *)
Definition keeps_store {A} (m : M A) : Prop :=
  forall s s' r, m s = (s', r) -> store_extends s s'.

(** [def __init__(self, p): self.a = p], defined in the frame [captured]. *)
Definition storing_init (p a : string) (captured : loc) : closure :=
  Closure (FunctionDef "__init__" ["self"; p] None
             [PiAttributeAssignment (PiVariable "self") a (PiVariable p)])
          captured.

(** A class with the storing initializer, bound to [C] in the root frame. *)
Definition storing_class_state : state :=
  State [Frame {["C" := VClassDef "C"
                          {["__init__" := storing_init "p" "a" 0]}]} None] [].

(** * Properties *)

(** ** Running the monad *)

Lemma bind_val {A B} (m : M A) (k : A -> M B) s s' a :
  m s = (s', Val a) -> bind m k s = k a s'.
Proof. intros H. unfold bind. now rewrite H. Qed.

Lemma bind_exn {A B} (m : M A) (k : A -> M B) s s' e :
  m s = (s', Exn e) -> bind m k s = (s', Exn e).
Proof. intros H. unfold bind. now rewrite H. Qed.

Lemma bind_inv_val {A B} (m : M A) (k : A -> M B) s s' b :
  bind m k s = (s', Val b) ->
  exists s1 a, m s = (s1, Val a) /\ k a s1 = (s', Val b).
Proof.
  unfold bind. destruct (m s) as [s1 [a | e |]]; intros H; try discriminate.
  now exists s1, a.
Qed.

Lemma as_runtime_error_val {A} (m : M A) s s' a :
  m s = (s', Val a) -> as_runtime_error m s = (s', Val a).
Proof. intros H. unfold as_runtime_error. now rewrite H. Qed.

Lemma as_runtime_error_exn {A} (m : M A) s s' e :
  m s = (s', Exn e) -> as_runtime_error m s = (s', Exn (reraise e)).
Proof. intros H. unfold as_runtime_error. now rewrite H. Qed.

Lemma evaluate_stmt_S host k node env s :
  evaluate_stmt host (S k) node env s
  = as_runtime_error (dispatch host (evaluate_stmt host k) k node env) s.
Proof. reflexivity. Qed.

(** Rewrites the running of a sequence of binds with the outcomes at hand. *)
Ltac run_with H :=
  first [ erewrite bind_val by exact H | erewrite bind_exn by exact H ].

(** ** Indexing *)



Lemma py_index_outside {A} (l : list A) (i : Z) :
  (i < - Z.of_nat (length l) \/ Z.of_nat (length l) <= i)%Z ->
  py_index l i = None.
Proof.
  intros H. unfold py_index.
  destruct (Z.leb_spec 0 i), (Z.ltb_spec i (Z.of_nat (length l))),
    (Z.leb_spec (- Z.of_nat (length l)) i), (Z.ltb_spec i 0);
    cbn [andb]; try reflexivity; lia.
Qed.


Lemma check_type_ok host v t :
  type_of v = t -> check_type host v t = ret v.
Proof. intros H. unfold check_type. now rewrite bool_decide_eq_true_2. Qed.

Lemma check_type_fail host v t :
  type_of v <> t ->
  check_type host v t = raise (TypeError (check_type_msg host t v)).
Proof. intros H. unfold check_type. now rewrite bool_decide_eq_false_2. Qed.




(** ** Containment *)


Lemma append_nil (t : string) : (EmptyString ++ t)%string = t.
Proof. reflexivity. Qed.










(** ** The frame of a call *)

Lemma EnvFrame_new_eq p s :
  EnvFrame_new p s = (push_frame s (Frame ∅ p), Val (length (frames s))).
Proof. reflexivity. Qed.

Lemma insert_top s f x v :
  insert (length (frames s)) x v (push_frame s f)
  = (push_frame s (insert_var x v f), Val tt).
Proof.
  unfold insert, push_frame. cbn [frames objects].
  rewrite alter_app_r_alt by lia. now rewrite Nat.sub_diag.
Qed.

Lemma bind_params_enough s names : forall f i args missing,
  length names + i <= length args ->
  bind_params (length (frames s)) names i args missing (push_frame s f)
  = (push_frame s (bind_all names (drop i args) f), Val tt).
Proof.
  induction names as [| x names IH]; intros f i args missing Hlen.
  - reflexivity.
  - cbn in Hlen. cbn [bind_params].
    destruct (lookup_lt_is_Some_2 args i) as [a Ha]; [lia |].
    rewrite Ha. erewrite bind_val by apply insert_top.
    rewrite IH by lia. rewrite (drop_S _ _ _ Ha). reflexivity.
Qed.

Lemma bind_params_short s names : forall f i args missing,
  i <= length args ->
  length args < length names + i ->
  exists f' x,
    bind_params (length (frames s)) names i args missing (push_frame s f)
    = (push_frame s f', Exn (TypeError (missing x)))
    /\ parent f' = parent f.
Proof.
  induction names as [| x names IH]; intros f i args missing Hi Hlen.
  - cbn in Hlen. lia.
  - cbn in Hlen. cbn [bind_params].
    destruct (args !! i) as [a |] eqn:Ha.
    + apply lookup_lt_Some in Ha.
      destruct (IH (insert_var x a f) (S i) args missing) as (f' & y & H & Hp);
        [lia | lia |].
      exists f', y. split; [| exact Hp].
      erewrite bind_val by apply insert_top. exact H.
    + now exists f, x.
Qed.

Lemma bind_all_parent names : forall vals f,
  parent (bind_all names vals f) = parent f.
Proof.
  unfold bind_all.
  induction names as [| x names IH]; intros [| v vals] f; try reflexivity.
  cbn. now rewrite IH.
Qed.

Lemma function_frame_parent c args :
  parent (function_frame c args) = Some (closure_env c).
Proof.
  unfold function_frame.
  destruct (vararg_name _); cbn; now rewrite bind_all_parent.
Qed.

Lemma function_call_env_missing c args s :
  length args < length (fd_arg_names (funcdef_of c)) ->
  exists f,
    function_call_env c args s
    = (push_frame s f, Exn (TypeError msg_missing_function))
    /\ parent f = Some (closure_env c).
Proof.
  intros Hlen. unfold function_call_env.
  erewrite bind_val by apply EnvFrame_new_eq.
  destruct (bind_params_short s (fd_arg_names (funcdef_of c))
              (Frame ∅ (Some (closure_env c))) 0 args
              (fun _ => msg_missing_function)) as (f' & x & H & Hp);
    [lia | lia |].
  exists f'. split; [| exact Hp]. erewrite bind_exn by exact H. reflexivity.
Qed.

Lemma function_call_env_too_many c args s :
  vararg_name (funcdef_of c) = None ->
  length (fd_arg_names (funcdef_of c)) < length args ->
  function_call_env c args s
  = (push_frame s (function_frame c args),
     Exn (TypeError msg_too_many_function)).
Proof.
  intros Hva Hlen. unfold function_call_env, function_frame.
  erewrite bind_val by apply EnvFrame_new_eq.
  erewrite bind_val by (apply bind_params_enough; lia).
  rewrite Hva. apply Nat.ltb_lt in Hlen. rewrite Hlen. reflexivity.
Qed.

Lemma function_call_env_fits c args s :
  length (fd_arg_names (funcdef_of c)) <= length args ->
  (vararg_name (funcdef_of c) = None ->
   length args <= length (fd_arg_names (funcdef_of c))) ->
  function_call_env c args s
  = (push_frame s (function_frame c args), Val (length (frames s))).
Proof.
  intros Hlen Hva. unfold function_call_env, function_frame.
  erewrite bind_val by apply EnvFrame_new_eq.
  erewrite bind_val by (apply bind_params_enough; lia).
  destruct (vararg_name (funcdef_of c)) as [va |].
  - erewrite bind_val by apply insert_top. reflexivity.
  - specialize (Hva eq_refl).
    assert (Nat.ltb (length (fd_arg_names (funcdef_of c))) (length args) = false)
      as -> by (apply Nat.ltb_ge; lia).
    reflexivity.
Qed.

(** Every call frame is new, on top of the store, and a child of the frame
    the closure captured; the binding phase ends with the handle of that
    frame or with a type error. *)
Lemma function_call_env_shape c args s :
  exists f r,
    function_call_env c args s = (push_frame s f, r)
    /\ parent f = Some (closure_env c)
    /\ (r = Val (length (frames s)) \/ exists msg, r = Exn (TypeError msg)).
Proof.
  destruct (Nat.lt_ge_cases (length args) (length (fd_arg_names (funcdef_of c))))
    as [Hlt | Hge].
  - destruct (function_call_env_missing c args s Hlt) as (f & H & Hp).
    exists f, (Exn (TypeError msg_missing_function)). eauto.
  - destruct (vararg_name (funcdef_of c)) as [va |] eqn:Hva.
    + exists (function_frame c args), (Val (length (frames s))).
      split; [| split; [apply function_frame_parent | now left]].
      apply function_call_env_fits; [lia | congruence].
    + destruct (Nat.lt_ge_cases (length (fd_arg_names (funcdef_of c)))
                  (length args)) as [Hmore | Hle].
      * exists (function_frame c args), (Exn (TypeError msg_too_many_function)).
        split; [| split; [apply function_frame_parent | eauto]].
        now apply function_call_env_too_many.
      * exists (function_frame c args), (Val (length (frames s))).
        split; [| split; [apply function_frame_parent | now left]].
        apply function_call_env_fits; [lia | intros _; lia].
Qed.

Lemma lookup_top_bound s f x v :
  vars f !! x = Some v ->
  lookup (length (frames s)) x (push_frame s f) = (push_frame s f, Val v).
Proof.
  intros Hx. unfold lookup. cbn [push_frame frames].
  rewrite length_app. cbn [length]. rewrite Nat.add_1_r. cbn [lookup_from].
  rewrite list_lookup_middle by reflexivity. now rewrite Hx.
Qed.

Lemma lookup_top_parent s f x p fp v :
  vars f !! x = None ->
  parent f = Some p ->
  frames s !! p = Some fp ->
  vars fp !! x = Some v ->
  lookup (length (frames s)) x (push_frame s f) = (push_frame s f, Val v).
Proof.
  intros Hx Hp Hfp Hv. unfold lookup. cbn [push_frame frames].
  rewrite length_app. cbn [length]. rewrite Nat.add_1_r. cbn [lookup_from].
  rewrite list_lookup_middle by reflexivity. rewrite Hx, Hp.
  pose proof (lookup_lt_Some _ _ _ Hfp) as Hlt.
  destruct (length (frames s)) as [| n] eqn:Hn; [lia |].
  cbn [lookup_from].
  rewrite lookup_app_l by lia. now rewrite Hfp, Hv.
Qed.

Lemma function_frame_vararg c args vararg :
  vararg_name (funcdef_of c) = Some vararg ->
  vars (function_frame c args) !! vararg
  = Some (VList (drop (length (fd_arg_names (funcdef_of c))) args)).
Proof.
  intros H. unfold function_frame. rewrite H. cbn [insert_var vars].
  apply lookup_insert_eq.
Qed.

(** ** Arity of function calls *)

(** C7. A call with fewer arguments than declared parameters fails with the
    missing-argument error; a call of a non-variadic function with more
    arguments than parameters fails with the too-many-arguments error; with
    [n] fixed parameters and a variadic one, a call with [n + k] arguments
    gets its frame, runs the body there, and finds the variadic name bound
    to a list of the [k] surplus arguments, in order. *)
Theorem function_call_arity ev c args env s :
  let fd := funcdef_of c in
  let n := length (fd_arg_names fd) in
  (vararg_name fd = None -> length args < n ->
   exists s', _execute_function_call ev c args env s
              = (s', Exn (TypeError msg_missing_function)))
  /\ (vararg_name fd = None -> n < length args ->
      exists s', _execute_function_call ev c args env s
                 = (s', Exn (TypeError msg_too_many_function)))
  /\ (forall vararg k,
        vararg_name fd = Some vararg -> length args = n + k ->
        let s' := push_frame s (function_frame c args) in
        let call_env := length (frames s) in
        _execute_function_call ev c args env s
        = catch_return (run_stmts ev (fd_body fd) call_env VNone) s'
        /\ lookup call_env vararg s' = (s', Val (VList (drop n args)))
        /\ length (drop n args) = k).
Proof.
  cbn zeta. split; [| split].
  - intros _ Hlen.
    destruct (function_call_env_missing c args s Hlen) as (f & H & _).
    exists (push_frame s f). unfold _execute_function_call.
    now erewrite bind_exn by exact H.
  - intros Hva Hlen. eexists. unfold _execute_function_call.
    erewrite bind_exn by (now apply function_call_env_too_many). reflexivity.
  - intros vararg k Hva Hlen. split; [| split].
    + unfold _execute_function_call.
      erewrite bind_val by (apply function_call_env_fits; [lia | congruence]).
      reflexivity.
    + apply lookup_top_bound. now apply function_frame_vararg.
    + rewrite length_drop. lia.
Qed.

Lemma function_call_arity_witness :
  (exists s', _execute_function_call (evaluate_stmt sample_host 2)
                two_params [VNumber 1] 0 (initial_state sample_host)
              = (s', Exn (TypeError msg_missing_function)))
  /\ (exists s', _execute_function_call (evaluate_stmt sample_host 2)
                   two_params [VNumber 1; VNumber 2; VNumber 3] 0
                   (initial_state sample_host)
                 = (s', Exn (TypeError msg_too_many_function)))
  /\ (_execute_function_call (evaluate_stmt sample_host 2)
        two_params_variadic [VNumber 1; VNumber 2; VNumber 3] 0
        (initial_state sample_host)).2
     = Val (VList [VNumber 3]).
Proof.
  split; [| split].
  - apply (function_call_arity (evaluate_stmt sample_host 2) two_params
             [VNumber 1] 0 (initial_state sample_host));
      [reflexivity | cbn; lia].
  - apply (function_call_arity (evaluate_stmt sample_host 2) two_params
             [VNumber 1; VNumber 2; VNumber 3] 0 (initial_state sample_host));
      [reflexivity | cbn; lia].
  - destruct (function_call_arity (evaluate_stmt sample_host 2)
                two_params_variadic [VNumber 1; VNumber 2; VNumber 3] 0
                (initial_state sample_host)) as (_ & _ & H).
    destruct (H "rest" 1 eq_refl eq_refl) as (Hcall & _ & _).
    rewrite Hcall. reflexivity.
Defined.

(** ** Lexical scoping of function calls *)

(** What a call does with the outcome of the binding phase. *)
Lemma _execute_function_call_split ev c args env s :
  _execute_function_call ev c args env s
  = match function_call_env c args s with
    | (s', Val call_env) =>
        catch_return (run_stmts ev (fd_body (funcdef_of c)) call_env VNone) s'
    | (s', Exn e) => (s', Exn e)
    | (s', OutOfFuel) => (s', OutOfFuel)
    end.
Proof. reflexivity. Qed.

Lemma evaluate_variable host k name env s v :
  lookup env name s = (s, Val v) ->
  evaluate_stmt host (S k) (PiVariable name) env s = (s, Val v).
Proof.
  intros H. rewrite evaluate_stmt_S. apply as_runtime_error_val. exact H.
Qed.

Lemma evaluate_return host k value env s s' v :
  evaluate_stmt host k value env s = (s', Val v) ->
  evaluate_stmt host (S k) (PiReturn value) env s
  = (s', Exn (ReturnException v)).
Proof.
  intros H. rewrite evaluate_stmt_S.
  rewrite (as_runtime_error_exn _ s s' (ReturnException v)); [reflexivity |].
  cbn [dispatch]. now erewrite bind_val by exact H.
Qed.

Lemma catch_return_returned (m : M EnvValue) s s' v :
  m s = (s', Exn (ReturnException v)) -> catch_return m s = (s', Val v).
Proof. intros H. unfold catch_return, try_except. now rewrite H. Qed.

Lemma catch_return_val (m : M EnvValue) s s' v :
  m s = (s', Val v) -> catch_return m s = (s', Val v).
Proof. intros H. unfold catch_return, try_except. now rewrite H. Qed.

(** A call of [reader f y] sees the binding of [y] that the captured frame
    holds when the call runs. *)
Lemma reader_observes_current_binding host k f y captured frame v env s :
  frames s !! captured = Some frame ->
  vars frame !! y = Some v ->
  _execute_function_call (evaluate_stmt host (S (S k)))
    (Closure (reader f y) captured) [] env s
  = (push_frame s (Frame ∅ (Some captured)), Val v).
Proof.
  intros Hframe Hy. unfold _execute_function_call.
  erewrite bind_val by (apply function_call_env_fits; cbn; [lia | reflexivity]).
  apply catch_return_returned.
  change (fd_body (funcdef_of (Closure (reader f y) captured)))
    with [PiReturn (PiVariable y)].
  cbn [run_stmts]. apply bind_exn.
  apply evaluate_return, evaluate_variable.
  change (function_frame (Closure (reader f y) captured) [])
    with (Frame ∅ (Some captured)).
  eapply lookup_top_parent; eauto.
Qed.

(** C1. A definition captures the frame it is executed in, and a function
    call runs the body in a new frame whose parent is that captured frame,
    never the frame of the caller; the frame is captured by reference:
    after [y = 1], the definition of [f] reading [y], and [y = 2] in the
    same frame, the call of [f] yields 2. *)
Theorem function_call_parent_is_captured_frame host ev c args env s :
  (forall k fd,
     evaluate_stmt host (S k) (PiFunctionDef fd) env s
     = (State (alter (insert_var (fd_name fd)
                        (VFunctionClosure (Closure fd env))) env (frames s))
              (objects s),
        Val VNone))
  /\ (forall caller, _execute_function_call ev c args caller s
                     = _execute_function_call ev c args env s)
  /\ frames s !! length (frames s) = None
  /\ (exists frame r,
        function_call_env c args s = (push_frame s frame, r)
        /\ parent frame = Some (closure_env c)
        /\ (r = Val (length (frames s)) \/ exists msg, r = Exn (TypeError msg))
        /\ _execute_function_call ev c args env s
           = match r with
             | Val call_env =>
                 catch_return
                   (run_stmts ev (fd_body (funcdef_of c)) call_env VNone)
                   (push_frame s frame)
             | Exn e => (push_frame s frame, Exn e)
             | OutOfFuel => (push_frame s frame, OutOfFuel)
             end)
  /\ (forall k f y captured frame v,
        frames s !! captured = Some frame ->
        vars frame !! y = Some v ->
        _execute_function_call (evaluate_stmt host (S (S k)))
          (Closure (reader f y) captured) [] env s
        = (push_frame s (Frame ∅ (Some captured)), Val v))
  /\ (evaluate_program sample_host 4 rebinding_program initial_env
        (initial_state sample_host)).2 = Val (VNumber 2)
  /\ (evaluate_program sample_host 6 shadowing_program initial_env
        (initial_state sample_host)).2 = Val (VNumber 1).
Proof.
  split; [reflexivity |].
  split; [reflexivity |].
  split; [apply lookup_ge_None; lia |].
  split.
  { destruct (function_call_env_shape c args s) as (f & r & H & Hp & Hr).
    exists f, r. repeat (split; [assumption |]).
    rewrite _execute_function_call_split, H. reflexivity. }
  split.
  { intros. eapply reader_observes_current_binding; eauto. }
  split; vm_compute; reflexivity.
Qed.

Lemma function_call_parent_is_captured_frame_witness :
  _execute_function_call (evaluate_stmt sample_host 2)
    (Closure (reader "f" "y") 0) [] 0
    (State [Frame {["y" := VNumber 2]} None] [])
  = (push_frame (State [Frame {["y" := VNumber 2]} None] [])
       (Frame ∅ (Some 0)), Val (VNumber 2)).
Proof.
  destruct (function_call_parent_is_captured_frame sample_host
              (evaluate_stmt sample_host 2) (Closure (reader "f" "y") 0) [] 0
              (State [Frame {["y" := VNumber 2]} None] []))
    as (_ & _ & _ & _ & H & _).
  apply (H 0 "f" "y" 0 (Frame {["y" := VNumber 2]} None) (VNumber 2));
    reflexivity.
Defined.

(** ** Call dispatch and class instantiation *)

(** What [_evaluate_function_call] does once callee and arguments are
    values. *)
Lemma call_dispatch host ev function args env s s1 s2 func_val vs :
  ev function env s = (s1, Val func_val) ->
  eval_elements ev args env s1 = (s2, Val vs) ->
  _evaluate_function_call host ev function args env s
  = match func_val with
    | VClassDef name methods =>
        (instance <- VObject_new name methods;;
         exec match methods !! "__init__" with
              | Some init_method =>
                  exec _execute_method_call ev init_method instance vs env;;
                  ret tt
              | None => ret tt
              end;;
         ret (VObject instance)) s2
    | VMethodClosure function instance =>
        _execute_method_call ev function instance vs env s2
    | VPrimitive name => call_primitive host name vs s2
    | VFunctionClosure c => _execute_function_call ev c vs env s2
    | _ => (s2, Exn (TypeError msg_not_callable))
    end.
Proof.
  intros Hf Ha. unfold _evaluate_function_call.
  run_with Hf. run_with Ha. destruct func_val; reflexivity.
Qed.

Lemma VObject_new_eq name methods s :
  VObject_new name methods s
  = (push_object s name methods, Val (length (objects s))).
Proof. reflexivity. Qed.

Lemma push_object_lookup s name methods :
  objects (push_object s name methods) !! length (objects s)
  = Some (Cell name methods ∅).
Proof. cbn. now apply list_lookup_middle. Qed.

(** C10. Calling a class that defines no [__init__] succeeds for any number
    of arguments: the evaluated arguments are dropped without any arity
    check, and the result is a new object of the class, without
    attributes. *)
Theorem instantiate_without_initializer host k function args env s s1 s2
    name methods vs :
  evaluate_stmt host k function env s = (s1, Val (VClassDef name methods)) ->
  eval_elements (evaluate_stmt host k) args env s1 = (s2, Val vs) ->
  methods !! "__init__" = None ->
  evaluate_stmt host (S k) (PiFunctionCall function args) env s
  = (push_object s2 name methods, Val (VObject (length (objects s2))))
  /\ objects s2 !! length (objects s2) = None
  /\ objects (push_object s2 name methods) !! length (objects s2)
     = Some (Cell name methods ∅).
Proof.
  intros Hf Ha Hinit. split; [| split].
  - rewrite evaluate_stmt_S. apply as_runtime_error_val. cbn [dispatch].
    rewrite (call_dispatch _ _ _ _ _ _ _ _ _ _ Hf Ha).
    erewrite bind_val by apply VObject_new_eq. rewrite Hinit. reflexivity.
  - apply lookup_ge_None. lia.
  - apply push_object_lookup.
Qed.

Lemma instantiate_without_initializer_witness :
  evaluate_stmt sample_host 3
    (PiFunctionCall (PiVariable "C") [PiNumber 1; PiNumber 2]) 0
    (State [Frame {["C" := plain_class]} None] [])
  = (push_object (State [Frame {["C" := plain_class]} None] []) "C"
       {["m" := Closure (FunctionDef "m" ["self"] None [PiNumber 7]) 0]},
     Val (VObject 0)).
Proof.
  apply (instantiate_without_initializer sample_host 2 (PiVariable "C")
           [PiNumber 1; PiNumber 2] 0
           (State [Frame {["C" := plain_class]} None] [])
           (State [Frame {["C" := plain_class]} None] [])
           (State [Frame {["C" := plain_class]} None] [])
           "C" {["m" := Closure (FunctionDef "m" ["self"] None [PiNumber 7]) 0]}
           [VNumber 1; VNumber 2]);
    reflexivity.
Defined.

(** ** Method calls *)

Lemma method_call_env_too_many function instance args names s :
  fd_arg_names (funcdef_of function) = "self" :: names ->
  length names < length args ->
  method_call_env function instance args s
  = (push_frame s (method_frame function instance args),
     Exn (TypeError msg_too_many_method)).
Proof.
  intros Hnames Hlen. unfold method_call_env, method_frame.
  erewrite bind_val by apply EnvFrame_new_eq.
  rewrite Hnames. cbn [String.eqb Ascii.eqb Bool.eqb negb tail].
  change (negb ("self" =? "self")%string) with false. cbn iota.
  erewrite bind_val by apply insert_top.
  erewrite bind_val by (apply bind_params_enough; lia).
  apply Nat.ltb_lt in Hlen. rewrite Hlen. reflexivity.
Qed.

Lemma method_call_env_fits function instance args names s :
  fd_arg_names (funcdef_of function) = "self" :: names ->
  length names = length args ->
  method_call_env function instance args s
  = (push_frame s (method_frame function instance args),
     Val (length (frames s))).
Proof.
  intros Hnames Hlen. unfold method_call_env, method_frame.
  erewrite bind_val by apply EnvFrame_new_eq.
  rewrite Hnames. cbn [tail].
  change (negb ("self" =? "self")%string) with false. cbn iota.
  erewrite bind_val by apply insert_top.
  erewrite bind_val by (apply bind_params_enough; lia).
  assert (Nat.ltb (length names) (length args) = false) as ->
    by (apply Nat.ltb_ge; lia).
  reflexivity.
Qed.

(** What a method call does with the outcome of its body. *)
Lemma _execute_method_call_body ev function instance args env s s1 call_env :
  method_call_env function instance args s = (s1, Val call_env) ->
  _execute_method_call ev function instance args env s
  = match run_stmts ev (fd_body (funcdef_of function)) call_env VNone s1 with
    | (s2, Val result) =>
        (s2, Val (if String.eqb (fd_name (funcdef_of function)) "__init__"
                  then VNone else result))
    | (s2, Exn (ReturnException v)) => (s2, Val v)
    | r => r
    end.
Proof.
  intros Henv. unfold _execute_method_call. run_with Henv.
  unfold catch_return, try_except, bind.
  destruct (run_stmts ev _ call_env VNone s1) as [s2 [result | e |]];
    [| destruct e; reflexivity | reflexivity].
  now destruct (String.eqb _ _).
Qed.

(** What a function call does with the outcome of its body. *)
Lemma _execute_function_call_body ev c args env s s1 call_env :
  function_call_env c args s = (s1, Val call_env) ->
  _execute_function_call ev c args env s
  = match run_stmts ev (fd_body (funcdef_of c)) call_env VNone s1 with
    | (s2, Exn (ReturnException v)) => (s2, Val v)
    | r => r
    end.
Proof.
  intros Henv. unfold _execute_function_call. run_with Henv.
  unfold catch_return, try_except.
  destruct (run_stmts ev _ call_env VNone s1) as [s2 [result | e |]];
    [| destruct e |]; reflexivity.
Qed.

(** ** The initializer *)

(** The initializer called as a method, [o.__init__()], hands back its
    [return] value. *)
Lemma initializer_return_payload_escapes :
  ~ initializer_result_forced_to_none.
Proof.
  intros H.
  assert (E : (_execute_method_call (evaluate_stmt sample_host 3)
                 returning_init 0 [] 0 (initial_state sample_host)).2
              = Val (VNumber 5)) by (vm_compute; reflexivity).
  destruct (_execute_method_call (evaluate_stmt sample_host 3)
              returning_init 0 [] 0 (initial_state sample_host))
    as [s' r] eqn:E'.
  cbn in E. subst r. apply H in E'; [discriminate | reflexivity].
Qed.

(** C4 (amended). Instantiating a class allocates a new object without
    attributes and, once the initializer call has returned - with whatever
    value, a [return] payload included -, yields that object.  The
    initializer called as a method yields the None-value when its body runs
    to its end, and the payload when the body executes [return]. *)
Theorem instantiation_yields_object host k function args env s s1 s2
    name methods vs init :
  evaluate_stmt host k function env s = (s1, Val (VClassDef name methods)) ->
  eval_elements (evaluate_stmt host k) args env s1 = (s2, Val vs) ->
  methods !! "__init__" = Some init ->
  fd_name (funcdef_of init) = "__init__" ->
  let o := length (objects s2) in
  let s_new := push_object s2 name methods in
  objects s_new !! o = Some (Cell name methods ∅)
  /\ (forall s3 v,
        _execute_method_call (evaluate_stmt host k) init o vs env s_new
        = (s3, Val v) ->
        evaluate_stmt host (S k) (PiFunctionCall function args) env s
        = (s3, Val (VObject o)))
  /\ (forall s3 call_env s4 result,
        method_call_env init o vs s_new = (s3, Val call_env) ->
        run_stmts (evaluate_stmt host k) (fd_body (funcdef_of init))
          call_env VNone s3 = (s4, Val result) ->
        _execute_method_call (evaluate_stmt host k) init o vs env s_new
        = (s4, Val VNone))
  /\ (forall s3 call_env s4 v,
        method_call_env init o vs s_new = (s3, Val call_env) ->
        run_stmts (evaluate_stmt host k) (fd_body (funcdef_of init))
          call_env VNone s3 = (s4, Exn (ReturnException v)) ->
        _execute_method_call (evaluate_stmt host k) init o vs env s_new
        = (s4, Val v)).
Proof.
  intros Hf Ha Hinit Hname o s_new. split; [| split; [| split]].
  - apply push_object_lookup.
  - intros s3 v Hcall. rewrite evaluate_stmt_S. apply as_runtime_error_val.
    cbn [dispatch]. rewrite (call_dispatch _ _ _ _ _ _ _ _ _ _ Hf Ha).
    erewrite bind_val by apply VObject_new_eq. rewrite Hinit.
    fold o s_new. unfold bind at 1. unfold bind at 1. now rewrite Hcall.
  - intros s3 call_env s4 result Henv Hbody.
    rewrite (_execute_method_call_body _ _ _ _ _ _ _ _ Henv), Hbody, Hname.
    reflexivity.
  - intros s3 call_env s4 v Henv Hbody.
    now rewrite (_execute_method_call_body _ _ _ _ _ _ _ _ Henv), Hbody.
Qed.

Lemma instantiation_yields_object_witness :
  (evaluate_stmt sample_host 4 (PiFunctionCall (PiVariable "C") []) 0
     returning_init_state).2
  = Val (VObject 0).
Proof.
  destruct (instantiation_yields_object sample_host 3 (PiVariable "C") [] 0
              returning_init_state returning_init_state returning_init_state
              "C" {["__init__" := returning_init]} [] returning_init
              eq_refl eq_refl eq_refl eq_refl) as (_ & H & _).
  destruct (_execute_method_call (evaluate_stmt sample_host 3) returning_init
              (length (objects returning_init_state)) [] 0
              (push_object returning_init_state "C"
                 {["__init__" := returning_init]})) as [s3 r] eqn:E.
  assert (Hr : r = Val (VNumber 5)).
  { change r with (s3, r).2. rewrite <- E. vm_compute. reflexivity. }
  subst r. rewrite (H s3 (VNumber 5) eq_refl). reflexivity.
Defined.

(** ** Control signals at a call boundary *)




(** ** Variadic parameters of methods *)

(** C3. The code at the failing input: a method call with more arguments
    than fixed parameters after [self] raises the too-many-arguments error
    whether or not the declaration has a variadic parameter (the function
    call with the same declaration binds the surplus). *)
Theorem method_call_drops_variadic ev name (params : list (string * EnvValue))
    vararg body captured instance extra more env s :
  _execute_method_call ev
    (Closure (FunctionDef name ("self" :: params.*1) (Some vararg) body)
             captured)
    instance (params.*2 ++ extra :: more) env s
  = (push_frame s
       (method_frame
          (Closure (FunctionDef name ("self" :: params.*1) (Some vararg) body)
                   captured)
          instance (params.*2 ++ extra :: more)),
     Exn (TypeError msg_too_many_method))
  /\ (evaluate_program sample_host 5 variadic_method_program initial_env
        (initial_state sample_host)).2
     = Exn (RuntimeError msg_too_many_method)
  /\ (_execute_function_call (evaluate_stmt sample_host 2) variadic_function
        [VObject 0; VNumber 1] 0 (initial_state sample_host)).2
     = Val (VList [VNumber 1]).
Proof.
  split; [| split; vm_compute; reflexivity].
  unfold _execute_method_call.
  erewrite bind_exn; [reflexivity |].
  apply method_call_env_too_many with (names := params.*1); [reflexivity |].
  rewrite length_app, !length_fmap. cbn. lia.
Qed.

(** ** Subscripts out of range *)

Lemma subscript_out_of_range host k c i env s s1 s2 l q :
  evaluate_stmt host k c env s = (s1, Val (VList l)) ->
  evaluate_stmt host k i env s1 = (s2, Val (VNumber q)) ->
  (int_of q < - Z.of_nat (length l) \/ Z.of_nat (length l) <= int_of q)%Z ->
  evaluate_stmt host (S k) (PiSubscript c i) env s
  = (s2, Exn (IndexError "list index out of range")).
Proof.
  intros Hc Hi Hrange. rewrite evaluate_stmt_S.
  rewrite (as_runtime_error_exn _ s s2 (IndexError "list index out of range"));
    [reflexivity |].
  cbn [dispatch]. unfold _evaluate_subscript. run_with Hc. run_with Hi.
  rewrite check_type_ok by reflexivity. unfold bind, ret, subscript_of.
  cbn [number_value]. now rewrite py_index_outside.
Qed.

(** C5. The code at the failing input: an index outside [-n, n) ends the
    evaluation with the host's index error as it is, for lists, tuples and
    strings alike; the type error of the same function is the one that
    leaves as the uniform failure. *)
Theorem subscript_index_error_not_wrapped :
  (evaluate_program sample_host 3
     [PiSubscript (PiList [PiNumber 1; PiNumber 2]) (PiNumber 5)]
     initial_env (initial_state sample_host)).2
  = Exn (IndexError "list index out of range")
  /\ (evaluate_program sample_host 3
        [PiSubscript (PiTuple [PiNumber 1; PiNumber 2]) (PiNumber (-3))]
        initial_env (initial_state sample_host)).2
     = Exn (IndexError "tuple index out of range")
  /\ (evaluate_program sample_host 3
        [PiSubscript (PiString "abc") (PiNumber 3)]
        initial_env (initial_state sample_host)).2
     = Exn (IndexError "string index out of range")
  /\ (evaluate_program sample_host 3
        [PiSubscript (PiNumber 1) (PiNumber 0)]
        initial_env (initial_state sample_host)).2
     = Exn (RuntimeError msg_subscript)
  /\ (evaluate_program sample_host 3
        [PiSubscript (PiList [PiNumber 1; PiNumber 2]) (PiNumber (3 # 2))]
        initial_env (initial_state sample_host)).2
     = Val (VNumber 2).
Proof. repeat split; vm_compute; reflexivity. Qed.

(** ** The uniform failure *)

(** A [break] outside any loop leaves [evaluate] as the break signal. *)
Lemma stray_break_is_not_uniform : ~ failures_are_uniform.
Proof.
  intros H.
  destruct (H sample_host 1 [PiBreak] 0 (initial_state sample_host)
              (initial_state sample_host) BreakException eq_refl)
    as [msg Hmsg].
  discriminate.
Qed.

Lemma run_stmts_app ev pre rest env : forall last_value s,
  run_stmts ev (pre ++ rest) env last_value s
  = match run_stmts ev pre env last_value s with
    | (s1, Val v1) => run_stmts ev rest env v1 s1
    | r => r
    end.
Proof.
  induction pre as [| stmt pre IH]; intros last_value s; [reflexivity |].
  cbn [app run_stmts]. unfold bind.
  destruct (ev stmt env s) as [s1 [v | e |]]; [apply IH | |]; reflexivity.
Qed.

Lemma reraise_not_caught e msg :
  reraise e <> TypeError msg /\ reraise e <> ZeroDivisionError msg
  /\ reraise e <> ValueError msg.
Proof. destruct e; cbn; repeat split; discriminate. Qed.

Lemma evaluate_stmt_never_caught_class host fuel node env s s' e msg :
  evaluate_stmt host fuel node env s = (s', Exn e) ->
  e <> TypeError msg /\ e <> ZeroDivisionError msg /\ e <> ValueError msg.
Proof.
  destruct fuel as [| k]; [discriminate |].
  rewrite evaluate_stmt_S. unfold as_runtime_error.
  destruct (dispatch host _ k node env s) as [s1 [v | e1 |]];
    intros H; try discriminate.
  injection H as _ <-. apply reraise_not_caught.
Qed.

(** C6 (amended). The errors raised as type errors (type mismatch, missing
    argument, too many arguments, malformed method, unsupported node),
    zero-division errors and value errors end the evaluation of the node at
    once, and [evaluate_stmt] and [evaluate] hand them to the caller as one
    runtime error carrying the same message; a statement sequence in which
    a statement fails yields that failure and no value.  A [break] or
    [continue] outside any loop is not turned into an error: the signal
    itself reaches the caller. *)
Theorem caught_errors_surface_as_runtime_error host k node env s :
  (forall s' e,
     dispatch host (evaluate_stmt host k) k node env s = (s', Exn e) ->
     evaluate_stmt host (S k) node env s = (s', Exn (reraise e)))
  /\ (forall msg,
        reraise (TypeError msg) = RuntimeError msg
        /\ reraise (ZeroDivisionError msg) = RuntimeError msg
        /\ reraise (ValueError msg) = RuntimeError msg)
  /\ (forall fuel s' e msg,
        evaluate_stmt host fuel node env s = (s', Exn e) ->
        e <> TypeError msg /\ e <> ZeroDivisionError msg
        /\ e <> ValueError msg)
  /\ (forall ev pre post s0 v1 s' e,
        run_stmts ev pre env VNone s0 = (s, Val v1) ->
        ev node env s = (s', Exn e) ->
        evaluate ev (inl (pre ++ node :: post)) env s0
        = (s', Exn (reraise e)))
  /\ (forall function args name vs s1 s2 s3 e,
        evaluate_stmt host k function env s = (s1, Val (VPrimitive name)) ->
        eval_elements (evaluate_stmt host k) args env s1 = (s2, Val vs) ->
        call_primitive host name vs s2 = (s3, Exn e) ->
        evaluate_stmt host (S k) (PiFunctionCall function args) env s
        = (s3, Exn (reraise e)))
  /\ (forall type_repr,
        evaluate_stmt host (S k) (PiUnknown type_repr) env s
        = (s, Exn (RuntimeError (msg_unsupported type_repr))))
  /\ evaluate_program host (S k) [PiBreak] env s = (s, Exn BreakException)
  /\ evaluate_program host (S k) [PiContinue] env s
     = (s, Exn ContinueException)
  /\ (evaluate_program sample_host 3
        [PiFunctionCall (PiNumber 1) []] 0 arity_state).2
     = Exn (RuntimeError msg_not_callable)
  /\ (evaluate_program sample_host 3
        [PiFunctionCall (PiVariable "f") [PiNumber 1]] 0 arity_state).2
     = Exn (RuntimeError msg_missing_function)
  /\ (evaluate_program sample_host 3
        [PiFunctionCall (PiVariable "f") [PiNumber 1; PiNumber 2; PiNumber 3]]
        0 arity_state).2
     = Exn (RuntimeError msg_too_many_function)
  /\ (evaluate_program sample_host 5
        [PiFunctionCall
           (PiAttribute (PiFunctionCall (PiVariable "C") []) "m") []]
        0 arity_state).2
     = Exn (RuntimeError msg_self)
  /\ (evaluate_program sample_host 4
        [PiBinaryOperation (PiNumber 1) "/" (PiNumber 0); PiNumber 7]
        0 arity_state).2
     = Exn (RuntimeError "division by zero").
Proof.
  split.
  { intros s' e H. rewrite evaluate_stmt_S. now apply as_runtime_error_exn. }
  split; [intros msg; repeat split |].
  split.
  { intros fuel s' e msg H.
    eapply evaluate_stmt_never_caught_class; eauto. }
  split.
  { intros ev pre post s0 v1 s' e Hpre Hnode.
    unfold evaluate. apply as_runtime_error_exn.
    rewrite run_stmts_app, Hpre. cbn [run_stmts]. now apply bind_exn. }
  split.
  { intros function args name vs s1 s2 s3 e Hf Ha Hprim.
    rewrite evaluate_stmt_S. apply as_runtime_error_exn. cbn [dispatch].
    now rewrite (call_dispatch _ _ _ _ _ _ _ _ _ _ Hf Ha). }
  split; [reflexivity |].
  split; [reflexivity |].
  split; [reflexivity |].
  repeat split; vm_compute; reflexivity.
Qed.

Lemma caught_errors_surface_as_runtime_error_witness :
  evaluate_stmt sample_host 3
    (PiFunctionCall (PiVariable "/") [PiNumber 1; PiNumber 0]) 0 arity_state
  = (arity_state, Exn (RuntimeError "division by zero"))
  /\ evaluate (evaluate_stmt sample_host 3)
       (inl ([PiNumber 1] ++ PiSubscript (PiNumber 1) (PiNumber 0)
                          :: [PiNumber 2])) 0 arity_state
     = (arity_state, Exn (RuntimeError msg_subscript)).
Proof.
  split.
  - destruct (caught_errors_surface_as_runtime_error sample_host 2
                (PiVariable "/") 0 arity_state)
      as (_ & _ & _ & _ & H & _).
    apply (H (PiVariable "/") [PiNumber 1; PiNumber 0] "/"
             [VNumber 1; VNumber 0] arity_state arity_state arity_state
             (ZeroDivisionError "division by zero"));
      reflexivity.
  - destruct (caught_errors_surface_as_runtime_error sample_host 2
                (PiSubscript (PiNumber 1) (PiNumber 0)) 0 arity_state)
      as (_ & _ & _ & H & _).
    apply (H (evaluate_stmt sample_host 3) [PiNumber 1] [PiNumber 2]
             arity_state (VNumber 1) arity_state (RuntimeError msg_subscript));
      reflexivity.
Defined.

(** ** More fuel never changes an outcome *)

Lemma refines_refl {A} (m : M A) : refines m m.
Proof. now intros s s' r H _. Qed.

Lemma refines_bind {A B} (m m' : M A) (k k' : A -> M B) :
  refines m m' -> (forall a, refines (k a) (k' a)) ->
  refines (bind m k) (bind m' k').
Proof.
  intros Hm Hk s s' r. unfold bind.
  destruct (m s) as [s1 [a | e |]] eqn:E; intros H Hr.
  - rewrite (Hm _ _ _ E) by discriminate. now apply Hk.
  - rewrite (Hm _ _ _ E) by discriminate. exact H.
  - injection H as <- <-. now contradiction Hr.
Qed.

Lemma refines_try_except {A} (m m' : M A) (h h' : exn -> option (M A)) :
  refines m m' ->
  (forall e, match h e, h' e with
             | Some k, Some k' => refines k k'
             | None, None => True
             | _, _ => False
             end) ->
  refines (try_except m h) (try_except m' h').
Proof.
  intros Hm Hh s s' r. unfold try_except.
  destruct (m s) as [s1 [a | e |]] eqn:E; intros H Hr.
  - now rewrite (Hm _ _ _ E) by discriminate.
  - rewrite (Hm _ _ _ E) by discriminate. specialize (Hh e).
    destruct (h e), (h' e); try contradiction; [now apply Hh | exact H].
  - injection H as <- <-. now contradiction Hr.
Qed.

Lemma refines_as_runtime_error {A} (m m' : M A) :
  refines m m' -> refines (as_runtime_error m) (as_runtime_error m').
Proof.
  intros Hm s s' r. unfold as_runtime_error.
  destruct (m s) as [s1 [a | e |]] eqn:E; intros H Hr.
  - now rewrite (Hm _ _ _ E) by discriminate.
  - now rewrite (Hm _ _ _ E) by discriminate.
  - injection H as <- <-. now contradiction Hr.
Qed.

Lemma refines_loop_body (m m' : M EnvValue) last_value :
  refines m m' -> refines (loop_body m last_value) (loop_body m' last_value).
Proof.
  intros Hm. unfold loop_body. apply refines_try_except.
  - apply refines_bind; [exact Hm | intros; apply refines_refl].
  - intros []; try exact I; apply refines_refl.
Qed.

Lemma refines_catch_return (m m' : M EnvValue) :
  refines m m' -> refines (catch_return m) (catch_return m').
Proof.
  intros Hm. unfold catch_return. apply refines_try_except; [exact Hm |].
  intros []; try exact I; apply refines_refl.
Qed.

Create HintDb mono.

Section Monotone.
Context (host : Host).
Variables ev ev' : PiStatement -> loc -> M EnvValue.
Hypothesis Hev : forall node env, refines (ev node env) (ev' node env).

Local Hint Resolve refines_refl refines_bind refines_as_runtime_error
  refines_loop_body refines_catch_return : mono.

Lemma refines_eval_elements es env :
  refines (eval_elements ev es env) (eval_elements ev' es env).
Proof.
  induction es as [| e es IH]; cbn [eval_elements]; auto 6 with mono.
Qed.

Lemma refines_run_stmts stmts env : forall last_value,
  refines (run_stmts ev stmts env last_value)
          (run_stmts ev' stmts env last_value).
Proof.
  induction stmts as [| stmt stmts IH]; intros last_value; cbn [run_stmts];
    auto with mono.
Qed.

Lemma refines_evaluate node env :
  refines (evaluate ev node env) (evaluate ev' node env).
Proof.
  unfold evaluate. apply refines_as_runtime_error.
  destruct node; [apply refines_run_stmts | apply Hev].
Qed.

Lemma refines_while_loop n condition body env : forall n' last_value,
  n <= n' ->
  refines (while_loop host ev n condition body env last_value)
          (while_loop host ev' n' condition body env last_value).
Proof.
  induction n as [| n IH]; intros n' last_value Hle.
  - intros s s' r H Hr. injection H as <- <-. now contradiction Hr.
  - destruct n' as [| n']; [lia |]. cbn [while_loop].
    apply refines_bind; [apply Hev |]. intros c.
    apply refines_bind; [apply refines_refl |]. intros c'.
    destruct (negb (truthy c')); [apply refines_refl |].
    apply refines_bind; [apply refines_loop_body, refines_evaluate |].
    intros [v |]; [apply IH; lia | apply refines_refl].
Qed.

Lemma refines_for_loop items var body env : forall last_value,
  refines (for_loop ev items var body env last_value)
          (for_loop ev' items var body env last_value).
Proof.
  induction items as [| item items IH]; intros last_value; cbn [for_loop];
    [apply refines_refl |].
  apply refines_bind; [apply refines_refl |]. intros _.
  apply refines_bind; [apply refines_loop_body, refines_evaluate |].
  intros [v |]; [apply IH | apply refines_refl].
Qed.

Lemma refines_execute_function_call c args env :
  refines (_execute_function_call ev c args env)
          (_execute_function_call ev' c args env).
Proof.
  unfold _execute_function_call.
  apply refines_bind; [apply refines_refl |]. intros call_env.
  apply refines_catch_return, refines_run_stmts.
Qed.

Lemma refines_execute_method_call function instance args env :
  refines (_execute_method_call ev function instance args env)
          (_execute_method_call ev' function instance args env).
Proof.
  unfold _execute_method_call.
  apply refines_bind; [apply refines_refl |]. intros call_env.
  apply refines_catch_return.
  apply refines_bind; [apply refines_run_stmts | intros; apply refines_refl].
Qed.

Lemma refines_dispatch k k' node env :
  k <= k' ->
  refines (dispatch host ev k node env) (dispatch host ev' k' node env).
Proof.
  intros Hle.
  destruct node; cbn [dispatch]; try apply refines_refl; try apply Hev.
  - apply refines_bind; [apply refines_eval_elements | auto with mono].
  - apply refines_bind; [apply refines_eval_elements | auto with mono].
  - apply refines_bind; [apply Hev | auto with mono].
  - apply refines_bind; [apply Hev |]. intros c.
    apply refines_bind; [apply refines_refl |]. intros c'.
    apply refines_evaluate.
  - apply refines_bind; [apply Hev | auto with mono].
  - apply refines_bind; [apply Hev |]. intros l.
    apply refines_bind; [apply refines_refl |]. intros _.
    destruct (negb (truthy l)); [apply refines_refl |].
    apply refines_bind; [apply Hev | auto with mono].
  - apply refines_bind; [apply Hev |]. intros l.
    apply refines_bind; [apply refines_refl |]. intros _.
    destruct (truthy l); [apply refines_refl |].
    apply refines_bind; [apply Hev | auto with mono].
  - unfold _evaluate_while. now apply refines_while_loop.
  - apply refines_bind; [apply Hev | auto with mono].
  - unfold _evaluate_function_call.
    apply refines_bind; [apply Hev |]. intros fv.
    apply refines_bind; [apply refines_eval_elements |]. intros vs.
    destruct fv; try apply refines_refl.
    + apply refines_execute_function_call.
    + apply refines_execute_method_call.
    + apply refines_bind; [apply refines_refl |]. intros o.
      apply refines_bind; [| auto with mono].
      destruct (_ !! _); [| apply refines_refl].
      apply refines_bind; [apply refines_execute_method_call | auto with mono].
  - unfold _evaluate_for.
    apply refines_bind; [apply Hev |]. intros it.
    destruct it; try apply refines_refl; apply refines_for_loop.
  - unfold _evaluate_in.
    apply refines_bind; [apply Hev |]. intros c.
    apply refines_bind; [apply Hev | auto with mono].
  - unfold _evaluate_subscript.
    apply refines_bind; [apply Hev |]. intros c.
    apply refines_bind; [apply Hev | auto with mono].
  - apply refines_bind; [apply Hev | auto with mono].
  - apply refines_bind; [apply Hev |]. intros o.
    destruct o; try apply refines_refl.
    apply refines_bind; [apply Hev | auto with mono].
Qed.

End Monotone.

Lemma evaluate_stmt_more_fuel host fuel : forall fuel' node env,
  fuel <= fuel' ->
  refines (evaluate_stmt host fuel node env) (evaluate_stmt host fuel' node env).
Proof.
  induction fuel as [| k IH]; intros fuel' node env Hle.
  - intros s s' r H Hr. injection H as <- <-. now contradiction Hr.
  - destruct fuel' as [| k']; [lia |]. cbn [evaluate_stmt].
    apply refines_as_runtime_error, refines_dispatch; [| lia].
    intros n e. apply IH. lia.
Qed.

(** Two runs that differ in fuel only, neither running out, end alike. *)
Lemma evaluate_stmt_fuel_agree host fuel1 fuel2 node env s s1 r1 s2 r2 :
  evaluate_stmt host fuel1 node env s = (s1, r1) -> r1 <> OutOfFuel ->
  evaluate_stmt host fuel2 node env s = (s2, r2) -> r2 <> OutOfFuel ->
  (s1, r1) = (s2, r2).
Proof.
  intros H1 Hr1 H2 Hr2.
  destruct (Nat.le_ge_cases fuel1 fuel2) as [Hle | Hle].
  - rewrite <- H2. symmetry.
    now apply (evaluate_stmt_more_fuel host fuel1 fuel2 node env Hle).
  - rewrite <- H1.
    now apply (evaluate_stmt_more_fuel host fuel2 fuel1 node env Hle).
Qed.

(** * Further properties of the evaluator *)

(** ** Wrapped outcomes *)

Lemma reraise_idempotent e : reraise (reraise e) = reraise e.
Proof. now destruct e. Qed.

Lemma as_runtime_error_idempotent {A} (m : M A) s :
  as_runtime_error (as_runtime_error m) s = as_runtime_error m s.
Proof.
  unfold as_runtime_error. destruct (m s) as [s' [a | e |]]; try reflexivity.
  now rewrite reraise_idempotent.
Qed.

Lemma reraise_uncaught e :
  (forall msg, e <> TypeError msg /\ e <> ZeroDivisionError msg
               /\ e <> ValueError msg) ->
  reraise e = e.
Proof.
  intros H. destruct e as [msg | msg | msg | | | | | | |]; try reflexivity;
    destruct (H msg) as (H1 & H2 & H3); congruence.
Qed.

(** An exception that left [evaluate_stmt] passes the wrapper unchanged. *)
Lemma evaluate_stmt_exn_fixed host fuel node env s s' e :
  evaluate_stmt host fuel node env s = (s', Exn e) -> reraise e = e.
Proof.
  intros H. apply reraise_uncaught. intros msg.
  eapply evaluate_stmt_never_caught_class; eauto.
Qed.

Lemma as_runtime_error_evaluate_stmt host fuel node env s :
  as_runtime_error (evaluate_stmt host fuel node env) s
  = evaluate_stmt host fuel node env s.
Proof.
  unfold as_runtime_error.
  destruct (evaluate_stmt host fuel node env s) as [s' [a | e |]] eqn:E;
    try reflexivity.
  now rewrite (evaluate_stmt_exn_fixed _ _ _ _ _ _ _ E).
Qed.

(** ** Statement sequences *)

(** X1. A statement sequence yields the value of its last statement, and
    the None-value when it is empty. *)
Theorem evaluate_sequence_last_value ev env pre stmt s s1 v1 s2 v :
  run_stmts ev pre env VNone s = (s1, Val v1) ->
  ev stmt env s1 = (s2, Val v) ->
  evaluate ev (inl (pre ++ [stmt])) env s = (s2, Val v)
  /\ evaluate ev (inl []) env s = (s, Val VNone).
Proof.
  intros Hpre Hstmt. split; [| reflexivity].
  unfold evaluate. apply as_runtime_error_val.
  rewrite run_stmts_app, Hpre. cbn [run_stmts]. now erewrite bind_val by eauto.
Qed.

Lemma evaluate_sequence_last_value_witness :
  evaluate (evaluate_stmt sample_host 2)
    (inl ([PiNumber 1; PiString "a"] ++ [PiBool true])) 0
    (initial_state sample_host)
  = (initial_state sample_host, Val (VBool true))
  /\ evaluate (evaluate_stmt sample_host 2) (inl []) 0
       (initial_state sample_host)
     = (initial_state sample_host, Val VNone).
Proof.
  apply (evaluate_sequence_last_value (evaluate_stmt sample_host 2) 0
           [PiNumber 1; PiString "a"] (PiBool true)
           (initial_state sample_host) (initial_state sample_host)
           (VString "a") (initial_state sample_host) (VBool true));
    reflexivity.
Defined.

(** ** The result of a function call *)

(** X2. In a function body, [return] ends the call with its value and the
    statements after it are not executed; a body that runs to its end yields
    the value of its last statement, an empty body the None-value. *)
Theorem function_call_result host k c args env s s1 call_env :
  function_call_env c args s = (s1, Val call_env) ->
  (forall pre value post s2 v1 s3 v,
     fd_body (funcdef_of c) = pre ++ PiReturn value :: post ->
     run_stmts (evaluate_stmt host (S k)) pre call_env VNone s1
     = (s2, Val v1) ->
     evaluate_stmt host k value call_env s2 = (s3, Val v) ->
     _execute_function_call (evaluate_stmt host (S k)) c args env s
     = (s3, Val v))
  /\ (forall pre stmt s2 v1 s3 v,
        fd_body (funcdef_of c) = pre ++ [stmt] ->
        run_stmts (evaluate_stmt host (S k)) pre call_env VNone s1
        = (s2, Val v1) ->
        evaluate_stmt host (S k) stmt call_env s2 = (s3, Val v) ->
        _execute_function_call (evaluate_stmt host (S k)) c args env s
        = (s3, Val v))
  /\ (fd_body (funcdef_of c) = [] ->
      _execute_function_call (evaluate_stmt host (S k)) c args env s
      = (s1, Val VNone)).
Proof.
  intros Henv. split; [| split].
  - intros pre value post s2 v1 s3 v Hbody Hpre Hvalue.
    rewrite (_execute_function_call_body _ _ _ _ _ _ _ Henv), Hbody.
    rewrite run_stmts_app, Hpre. cbn [run_stmts].
    now erewrite bind_exn by (apply evaluate_return; exact Hvalue).
  - intros pre stmt s2 v1 s3 v Hbody Hpre Hstmt.
    rewrite (_execute_function_call_body _ _ _ _ _ _ _ Henv), Hbody.
    rewrite run_stmts_app, Hpre. cbn [run_stmts].
    now erewrite bind_val by exact Hstmt.
  - intros Hbody.
    now rewrite (_execute_function_call_body _ _ _ _ _ _ _ Henv), Hbody.
Qed.

Lemma function_call_result_witness :
  _execute_function_call (evaluate_stmt sample_host 2)
    (Closure (FunctionDef "f" ["a"] None
                ([PiNumber 1] ++ PiReturn (PiVariable "a") :: [PiUnknown "x"]))
             0)
    [VNumber 7] 0 (initial_state sample_host)
  = (push_frame (initial_state sample_host)
       (Frame {["a" := VNumber 7]} (Some 0)), Val (VNumber 7)).
Proof.
  destruct (function_call_result sample_host 1
              (Closure (FunctionDef "f" ["a"] None
                          ([PiNumber 1] ++ PiReturn (PiVariable "a")
                                        :: [PiUnknown "x"])) 0)
              [VNumber 7] 0 (initial_state sample_host)
              (push_frame (initial_state sample_host)
                 (Frame {["a" := VNumber 7]} (Some 0))) 1 eq_refl)
    as (H & _ & _).
  apply (H [PiNumber 1] (PiVariable "a") [PiUnknown "x"]
           (push_frame (initial_state sample_host)
              (Frame {["a" := VNumber 7]} (Some 0))) (VNumber 1)
           (push_frame (initial_state sample_host)
              (Frame {["a" := VNumber 7]} (Some 0))) (VNumber 7));
    reflexivity.
Defined.

(** ** List and tuple literals, argument lists *)

Lemma eval_elements_app ev pre post env s :
  eval_elements ev (pre ++ post) env s
  = match eval_elements ev pre env s with
    | (s1, Val vs) =>
        match eval_elements ev post env s1 with
        | (s2, Val ws) => (s2, Val (vs ++ ws))
        | (s2, Exn e) => (s2, Exn e)
        | (s2, OutOfFuel) => (s2, OutOfFuel)
        end
    | (s1, Exn e) => (s1, Exn e)
    | (s1, OutOfFuel) => (s1, OutOfFuel)
    end.
Proof.
  revert s. induction pre as [| e pre IH]; intros s.
  - cbn [app eval_elements]. unfold ret.
    now destruct (eval_elements ev post env s) as [s2 [ws | x |]].
  - cbn [app eval_elements]. unfold bind.
    destruct (ev e env s) as [s1 [v | x |]]; try reflexivity.
    rewrite IH.
    destruct (eval_elements ev pre env s1) as [s2 [vs | x |]]; try reflexivity.
    unfold ret.
    now destruct (eval_elements ev post env s2) as [s3 [ws | x |]].
Qed.

Lemma eval_elements_length ev es env : forall s s' vs,
  eval_elements ev es env s = (s', Val vs) -> length vs = length es.
Proof.
  induction es as [| e es IH]; intros s s' vs H.
  - injection H as _ <-. reflexivity.
  - cbn [eval_elements] in H.
    apply bind_inv_val in H as (s1 & v & _ & H).
    apply bind_inv_val in H as (s2 & ws & Hws & H).
    injection H as _ <-. cbn. f_equal. eauto.
Qed.

(** X3. The elements of a list or tuple literal are evaluated from left to
    right: when one fails, the literal fails with that error in the store
    the failing element left, and the elements after it are not evaluated.
    When all succeed the value has one element per expression. *)
Theorem literal_elements_left_to_right host k pre e post env s s1 vs :
  eval_elements (evaluate_stmt host k) pre env s = (s1, Val vs) ->
  (forall s2 x,
     evaluate_stmt host k e env s1 = (s2, Exn x) ->
     evaluate_stmt host (S k) (PiList (pre ++ e :: post)) env s = (s2, Exn x)
     /\ evaluate_stmt host (S k) (PiTuple (pre ++ e :: post)) env s
        = (s2, Exn x))
  /\ evaluate_stmt host (S k) (PiList pre) env s = (s1, Val (VList vs))
  /\ evaluate_stmt host (S k) (PiTuple pre) env s = (s1, Val (VTuple vs))
  /\ length vs = length pre.
Proof.
  intros Hpre. split; [| split; [| split]].
  - intros s2 x He.
    assert (Hall : eval_elements (evaluate_stmt host k) (pre ++ e :: post) env s
                   = (s2, Exn x)).
    { rewrite eval_elements_app, Hpre. cbn [eval_elements].
      now erewrite bind_exn by exact He. }
    pose proof (evaluate_stmt_exn_fixed _ _ _ _ _ _ _ He) as Hx.
    split; rewrite evaluate_stmt_S; cbn [dispatch];
      (erewrite as_runtime_error_exn
         by (erewrite bind_exn by exact Hall; reflexivity));
      now rewrite Hx.
  - rewrite evaluate_stmt_S. apply as_runtime_error_val. cbn [dispatch].
    now erewrite bind_val by exact Hpre.
  - rewrite evaluate_stmt_S. apply as_runtime_error_val. cbn [dispatch].
    now erewrite bind_val by exact Hpre.
  - eapply eval_elements_length; eauto.
Qed.

Lemma literal_elements_left_to_right_witness :
  evaluate_stmt sample_host 3
    (PiList ([PiNumber 1] ++ PiUnknown "first" :: [PiUnknown "second"])) 0
    (initial_state sample_host)
  = (initial_state sample_host, Exn (RuntimeError (msg_unsupported "first"))).
Proof.
  destruct (literal_elements_left_to_right sample_host 2 [PiNumber 1]
              (PiUnknown "first") [PiUnknown "second"] 0
              (initial_state sample_host) (initial_state sample_host)
              [VNumber 1] eq_refl) as (H & _).
  apply (H (initial_state sample_host)
           (RuntimeError (msg_unsupported "first")) eq_refl).
Defined.

(** ** Assignment and variables *)

Lemma lookup_own_binding s env name v f :
  frames s !! env = Some f ->
  vars f !! name = Some v ->
  lookup env name s = (s, Val v).
Proof.
  intros Hf Hv. unfold lookup.
  destruct (length (frames s)); cbn [lookup_from]; now rewrite Hf, Hv.
Qed.

(** X4. An assignment evaluates its right-hand side, binds the name in the
    current frame and yields the value; reading the name in that frame then
    gives the value.  No other frame, no other name of the frame and no
    object is touched. *)
Theorem assignment_binds_current_frame host k name value env s s1 v f :
  evaluate_stmt host k value env s = (s1, Val v) ->
  frames s1 !! env = Some f ->
  let s2 := bind_in s1 env name v in
  evaluate_stmt host (S k) (PiAssignment name value) env s = (s2, Val v)
  /\ (forall k', evaluate_stmt host (S k') (PiVariable name) env s2
                 = (s2, Val v))
  /\ frames s2 !! env = Some (insert_var name v f)
  /\ (forall other, other <> name ->
        vars (insert_var name v f) !! other = vars f !! other)
  /\ parent (insert_var name v f) = parent f
  /\ (forall p, p <> env -> frames s2 !! p = frames s1 !! p)
  /\ length (frames s2) = length (frames s1)
  /\ objects s2 = objects s1.
Proof.
  intros Hvalue Hf s2.
  assert (Hnew : frames s2 !! env = Some (insert_var name v f)).
  { cbn. rewrite list_lookup_alter_eq, Hf. reflexivity. }
  split; [| split; [| split; [exact Hnew | split; [| split; [| split; [| split]]]]]].
  - rewrite evaluate_stmt_S. apply as_runtime_error_val. cbn [dispatch].
    erewrite bind_val by exact Hvalue. reflexivity.
  - intros k'. apply evaluate_variable.
    eapply lookup_own_binding; [exact Hnew |]. cbn. apply lookup_insert_eq.
  - intros other Hne. cbn. now apply lookup_insert_ne.
  - reflexivity.
  - intros p Hne. cbn. now apply list_lookup_alter_ne.
  - cbn. apply length_alter.
  - reflexivity.
Qed.

Lemma assignment_binds_current_frame_witness :
  evaluate_stmt sample_host 2 (PiAssignment "x" (PiNumber 3)) 0
    (initial_state sample_host)
  = (bind_in (initial_state sample_host) 0 "x" (VNumber 3), Val (VNumber 3)).
Proof.
  apply (assignment_binds_current_frame sample_host 1 "x" (PiNumber 3) 0
           (initial_state sample_host) (initial_state sample_host) (VNumber 3)
           (Frame (list_to_map [("/", VPrimitive "/")]) None));
    reflexivity.
Defined.

(** ** Conditionals *)

(** X5. A conditional whose condition is a Boolean runs the selected branch
    as a statement sequence in the same frame, and its outcome is the
    outcome of that sequence; a condition of any other kind fails with the
    type error of [check_type] and runs no branch. *)
Theorem conditional_runs_selected_branch host k condition then_branch
    else_branch env s s1 c :
  evaluate_stmt host k condition env s = (s1, Val c) ->
  evaluate_stmt host (S k) (PiIfThenElse condition then_branch else_branch)
    env s
  = match c with
    | VBool b =>
        evaluate (evaluate_stmt host k)
          (inl (if b then then_branch else else_branch)) env s1
    | _ => (s1, Exn (RuntimeError (check_type_msg host TBool c)))
    end.
Proof.
  intros Hc. rewrite evaluate_stmt_S. cbn [dispatch].
  destruct c as [| b | | | | | | | | |];
    try (apply (as_runtime_error_exn _ s s1 (TypeError _));
         erewrite bind_val by exact Hc;
         rewrite check_type_fail by discriminate; reflexivity).
  unfold as_runtime_error at 1.
  erewrite bind_val by exact Hc. rewrite check_type_ok by reflexivity.
  unfold bind, ret. cbn [truthy].
  fold (as_runtime_error
          (evaluate (evaluate_stmt host k)
             (inl (if b then then_branch else else_branch)) env) s1).
  unfold evaluate. apply as_runtime_error_idempotent.
Qed.

Lemma conditional_runs_selected_branch_witness :
  evaluate_stmt sample_host 3
    (PiIfThenElse (PiBool false) [PiNumber 1] [PiNumber 2]) 0
    (initial_state sample_host)
  = (initial_state sample_host, Val (VNumber 2))
  /\ evaluate_stmt sample_host 3
       (PiIfThenElse (PiNumber 1) [PiNumber 1] [PiNumber 2]) 0
       (initial_state sample_host)
     = (initial_state sample_host, Exn (RuntimeError "VBool")).
Proof.
  split.
  - apply (conditional_runs_selected_branch sample_host 2 (PiBool false)
             [PiNumber 1] [PiNumber 2] 0 (initial_state sample_host)
             (initial_state sample_host) (VBool false) eq_refl).
  - apply (conditional_runs_selected_branch sample_host 2 (PiNumber 1)
             [PiNumber 1] [PiNumber 2] 0 (initial_state sample_host)
             (initial_state sample_host) (VNumber 1) eq_refl).
Defined.

(** ** Logical operators *)

Lemma _check_valid_piandor_type_ok v :
  andor_operand v = true -> _check_valid_piandor_type v = ret tt.
Proof.
  unfold andor_operand, _check_valid_piandor_type.
  now destruct (type_of v).
Qed.

Lemma _check_valid_piandor_type_fail v :
  andor_operand v = false ->
  _check_valid_piandor_type v = raise (TypeError (msg_andor (type_of v))).
Proof.
  unfold andor_operand, _check_valid_piandor_type.
  now destruct (type_of v).
Qed.

(** X6. [and] and [or] short-circuit on the truthiness of the left operand:
    a falsy left operand is the value of [and], a truthy one the value of
    [or], and the right operand is not evaluated; otherwise the value is
    the right operand itself, not a Boolean made from it.  [not] yields the
    Boolean opposite of the operand's truthiness. *)
Theorem and_or_short_circuit host k lhs rhs env s s1 l :
  evaluate_stmt host k lhs env s = (s1, Val l) ->
  andor_operand l = true ->
  (truthy l = false ->
   evaluate_stmt host (S k) (PiAnd lhs rhs) env s = (s1, Val l))
  /\ (truthy l = true ->
      evaluate_stmt host (S k) (PiOr lhs rhs) env s = (s1, Val l))
  /\ (forall s2 r,
        evaluate_stmt host k rhs env s1 = (s2, Val r) ->
        andor_operand r = true ->
        (truthy l = true ->
         evaluate_stmt host (S k) (PiAnd lhs rhs) env s = (s2, Val r))
        /\ (truthy l = false ->
            evaluate_stmt host (S k) (PiOr lhs rhs) env s = (s2, Val r)))
  /\ evaluate_stmt host (S k) (PiNot lhs) env s
     = (s1, Val (VBool (negb (truthy l)))).
Proof.
  intros Hl Hkind.
  pose proof (_check_valid_piandor_type_ok l Hkind) as Hcheck.
  split; [| split; [| split]].
  - intros Ht. rewrite evaluate_stmt_S. apply as_runtime_error_val.
    cbn [dispatch]. erewrite bind_val by exact Hl. rewrite Hcheck.
    unfold bind, ret. now rewrite Ht.
  - intros Ht. rewrite evaluate_stmt_S. apply as_runtime_error_val.
    cbn [dispatch]. erewrite bind_val by exact Hl. rewrite Hcheck.
    unfold bind, ret. now rewrite Ht.
  - intros s2 r Hr Hrkind.
    pose proof (_check_valid_piandor_type_ok r Hrkind) as Hrcheck.
    split; intros Ht; rewrite evaluate_stmt_S; apply as_runtime_error_val;
      cbn [dispatch]; erewrite bind_val by exact Hl; rewrite Hcheck;
      unfold bind at 1, ret at 1; rewrite Ht; cbn [negb];
      erewrite bind_val by exact Hr; now rewrite Hrcheck.
  - rewrite evaluate_stmt_S. apply as_runtime_error_val. cbn [dispatch].
    erewrite bind_val by exact Hl. now rewrite Hcheck.
Qed.

Lemma and_or_short_circuit_witness :
  evaluate_stmt sample_host 2 (PiAnd (PiList []) (PiUnknown "never")) 0
    (initial_state sample_host)
  = (initial_state sample_host, Val (VList []))
  /\ evaluate_stmt sample_host 2 (PiOr (PiString "a") (PiUnknown "never")) 0
       (initial_state sample_host)
     = (initial_state sample_host, Val (VString "a"))
  /\ evaluate_stmt sample_host 2 (PiAnd (PiString "a") (PiNumber 0)) 0
       (initial_state sample_host)
     = (initial_state sample_host, Val (VNumber 0)).
Proof.
  split; [| split].
  - destruct (and_or_short_circuit sample_host 1 (PiList [])
                (PiUnknown "never") 0 (initial_state sample_host)
                (initial_state sample_host) (VList []) eq_refl eq_refl)
      as (H & _).
    exact (H eq_refl).
  - destruct (and_or_short_circuit sample_host 1 (PiString "a")
                (PiUnknown "never") 0 (initial_state sample_host)
                (initial_state sample_host) (VString "a") eq_refl eq_refl)
      as (_ & H & _).
    exact (H eq_refl).
  - destruct (and_or_short_circuit sample_host 1 (PiString "a") (PiNumber 0)
                0 (initial_state sample_host) (initial_state sample_host)
                (VString "a") eq_refl eq_refl) as (_ & _ & H & _).
    destruct (H (initial_state sample_host) (VNumber 0) eq_refl eq_refl)
      as (H' & _).
    exact (H' eq_refl).
Defined.

(** X7. A closure, method, class, object or primitive as the operand of
    [not], or as the left operand of [and] or [or], is a type error; the
    message names the operator [and] in all three cases.  The right operand
    is checked only when it is evaluated. *)
Theorem logical_operand_rejected host k lhs rhs env s s1 l :
  evaluate_stmt host k lhs env s = (s1, Val l) ->
  andor_operand l = false ->
  evaluate_stmt host (S k) (PiNot lhs) env s
  = (s1, Exn (RuntimeError (msg_andor (type_of l))))
  /\ evaluate_stmt host (S k) (PiAnd lhs rhs) env s
     = (s1, Exn (RuntimeError (msg_andor (type_of l))))
  /\ evaluate_stmt host (S k) (PiOr lhs rhs) env s
     = (s1, Exn (RuntimeError (msg_andor (type_of l))))
  /\ (forall first s0 v,
        evaluate_stmt host k first env s0 = (s, Val v) ->
        andor_operand v = true ->
        (truthy v = true ->
         evaluate_stmt host (S k) (PiAnd first lhs) env s0
         = (s1, Exn (RuntimeError (msg_andor (type_of l)))))
        /\ (truthy v = true ->
            evaluate_stmt host (S k) (PiOr first lhs) env s0 = (s, Val v))).
Proof.
  intros Hl Hkind.
  pose proof (_check_valid_piandor_type_fail l Hkind) as Hcheck.
  split; [| split; [| split]].
  - rewrite evaluate_stmt_S.
    apply (as_runtime_error_exn _ s s1 (TypeError _)). cbn [dispatch].
    erewrite bind_val by exact Hl. now rewrite Hcheck.
  - rewrite evaluate_stmt_S.
    apply (as_runtime_error_exn _ s s1 (TypeError _)). cbn [dispatch].
    erewrite bind_val by exact Hl. now rewrite Hcheck.
  - rewrite evaluate_stmt_S.
    apply (as_runtime_error_exn _ s s1 (TypeError _)). cbn [dispatch].
    erewrite bind_val by exact Hl. now rewrite Hcheck.
  - intros first s0 v Hfirst Hvkind.
    pose proof (_check_valid_piandor_type_ok v Hvkind) as Hvcheck.
    split; intros Ht; rewrite evaluate_stmt_S.
    + apply (as_runtime_error_exn _ s0 s1 (TypeError _)). cbn [dispatch].
      erewrite bind_val by exact Hfirst. rewrite Hvcheck.
      unfold bind at 1, ret at 1. rewrite Ht. cbn [negb].
      erewrite bind_val by exact Hl. now rewrite Hcheck.
    + apply as_runtime_error_val. cbn [dispatch].
      erewrite bind_val by exact Hfirst. rewrite Hvcheck.
      unfold bind, ret. now rewrite Ht.
Qed.

Lemma logical_operand_rejected_witness :
  evaluate_stmt sample_host 3 (PiNot (PiVariable "/")) 0
    (initial_state sample_host)
  = (initial_state sample_host,
     Exn (RuntimeError
            "Type non supporté pour l'opérateur 'and': function")).
Proof.
  now apply (logical_operand_rejected sample_host 2 (PiVariable "/")
               (PiNumber 1) 0 (initial_state sample_host)
               (initial_state sample_host) (VPrimitive "/") eq_refl eq_refl).
Defined.

(** ** Loops *)

















(** ** Class definitions *)

Lemma class_table_snoc env methods method :
  class_table env (methods ++ [method])
  = <[fd_name method := Closure method env]> (class_table env methods).
Proof. unfold class_table. now rewrite foldl_app. Qed.

Lemma class_table_lookup env methods : forall n,
  class_table env methods !! n
  = (fun fd => Closure fd env)
      <$> last (filter (fun fd => fd_name fd = n) methods).
Proof.
  induction methods as [| method methods IH] using rev_ind; intros n.
  - reflexivity.
  - rewrite class_table_snoc, filter_app.
    destruct (decide (fd_name method = n)) as [<- | Hne].
    + rewrite lookup_insert_eq.
      rewrite (filter_cons_True _ method []) by reflexivity.
      rewrite filter_nil. now rewrite last_snoc.
    + rewrite lookup_insert_ne by exact Hne.
      rewrite (filter_cons_False _ method []) by exact Hne.
      rewrite filter_nil, app_nil_r. apply IH.
Qed.

(** X10. A class definition binds the class under its name in the current
    frame and yields the None-value.  Its method table maps a name to the
    last method declared under that name, as a closure over the frame of
    the class definition; names no method declares are absent. *)
Theorem class_definition_method_table host k name methods env s :
  evaluate_stmt host (S k) (PiClassDef name methods) env s
  = (bind_in s env name (VClassDef name (class_table env methods)), Val VNone)
  /\ (forall n,
        class_table env methods !! n
        = (fun fd => Closure fd env)
            <$> last (filter (fun fd => fd_name fd = n) methods))
  /\ (forall n c,
        class_table env methods !! n = Some c ->
        closure_env c = env /\ fd_name (funcdef_of c) = n
        /\ funcdef_of c ∈ methods)
  /\ (forall n,
        (forall fd, fd ∈ methods -> fd_name fd <> n) ->
        class_table env methods !! n = None).
Proof.
  split; [reflexivity |].
  split; [apply class_table_lookup |].
  split.
  - intros n c. rewrite class_table_lookup.
    destruct (last (filter (fun fd => fd_name fd = n) methods)) as [fd |] eqn:E;
      [| discriminate].
    intros H. injection H as <-. cbn.
    apply last_Some_elem_of, list_elem_of_filter in E as [Hn Hin]. auto.
  - intros n Hnone. rewrite class_table_lookup.
    destruct (last (filter (fun fd => fd_name fd = n) methods)) as [fd |] eqn:E;
      [| reflexivity].
    apply last_Some_elem_of, list_elem_of_filter in E as [Hn Hin].
    now destruct (Hnone fd Hin).
Qed.

(** ** Attributes *)

Lemma attribute_read_instance host k object attr env s s1 o cell v :
  evaluate_stmt host k object env s = (s1, Val (VObject o)) ->
  objects s1 !! o = Some cell ->
  attributes cell !! attr = Some v ->
  evaluate_stmt host (S k) (PiAttribute object attr) env s = (s1, Val v).
Proof.
  intros Hobj Hcell Hv. rewrite evaluate_stmt_S. apply as_runtime_error_val.
  cbn [dispatch]. erewrite bind_val by exact Hobj. cbn beta iota.
  assert (Hget : get_object o s1 = (s1, Val cell))
    by (unfold get_object; now rewrite Hcell).
  erewrite bind_val by exact Hget. now rewrite Hv.
Qed.

(** X11. Attribute access looks in the attributes of the instance first and
    in the methods of its class second: an instance attribute hides a
    method of the same name; a method comes back bound to the receiver; a
    name found in neither fails with the attribute error, which is not
    turned into the uniform failure; a receiver that is not an object is a
    type error. *)
Theorem attribute_resolution_order host k object attr env s s1 obj :
  evaluate_stmt host k object env s = (s1, Val obj) ->
  (forall o cell,
     obj = VObject o -> objects s1 !! o = Some cell ->
     (forall v, attributes cell !! attr = Some v ->
        evaluate_stmt host (S k) (PiAttribute object attr) env s
        = (s1, Val v))
     /\ (forall method,
           attributes cell !! attr = None ->
           class_methods cell !! attr = Some method ->
           evaluate_stmt host (S k) (PiAttribute object attr) env s
           = (s1, Val (VMethodClosure method o)))
     /\ (attributes cell !! attr = None ->
         class_methods cell !! attr = None ->
         evaluate_stmt host (S k) (PiAttribute object attr) env s
         = (s1, Exn (AttributeError (msg_no_attribute attr)))))
  /\ (type_of obj <> TObject ->
      evaluate_stmt host (S k) (PiAttribute object attr) env s
      = (s1, Exn (RuntimeError msg_attributes))).
Proof.
  intros Hobj. split.
  - intros o cell -> Hcell.
    assert (Hget : get_object o s1 = (s1, Val cell))
      by (unfold get_object; now rewrite Hcell).
    split; [| split].
    + intros v Hv. rewrite evaluate_stmt_S. apply as_runtime_error_val.
      cbn [dispatch]. erewrite bind_val by exact Hobj. cbn beta iota.
      erewrite bind_val by exact Hget. now rewrite Hv.
    + intros method Hv Hm. rewrite evaluate_stmt_S.
      apply as_runtime_error_val. cbn [dispatch].
      erewrite bind_val by exact Hobj. cbn beta iota.
      erewrite bind_val by exact Hget.
      now rewrite Hv, Hm.
    + intros Hv Hm. rewrite evaluate_stmt_S.
      apply (as_runtime_error_exn _ s s1 (AttributeError _)).
      cbn [dispatch]. erewrite bind_val by exact Hobj. cbn beta iota.
      erewrite bind_val by exact Hget. now rewrite Hv, Hm.
  - intros Hty. rewrite evaluate_stmt_S.
    apply (as_runtime_error_exn _ s s1 (TypeError _)). cbn [dispatch].
    erewrite bind_val by exact Hobj. now destruct obj.
Qed.

Lemma attribute_resolution_order_witness :
  evaluate_stmt sample_host 2 (PiAttribute (PiVariable "o") "m") 0
    shadowing_object_state
  = (shadowing_object_state, Val (VNumber 1))
  /\ evaluate_stmt sample_host 2 (PiAttribute (PiVariable "o") "n") 0
       shadowing_object_state
     = (shadowing_object_state, Exn (AttributeError (msg_no_attribute "n"))).
Proof.
  split.
  - destruct (attribute_resolution_order sample_host 1 (PiVariable "o") "m" 0
                shadowing_object_state shadowing_object_state (VObject 0)
                eq_refl) as (H & _).
    destruct (H 0 (Cell "C"
                     {["m" := Closure (FunctionDef "m" ["self"] None []) 0]}
                     {["m" := VNumber 1]}) eq_refl eq_refl) as (H' & _).
    exact (H' (VNumber 1) eq_refl).
  - destruct (attribute_resolution_order sample_host 1 (PiVariable "o") "n" 0
                shadowing_object_state shadowing_object_state (VObject 0)
                eq_refl) as (H & _).
    destruct (H 0 (Cell "C"
                     {["m" := Closure (FunctionDef "m" ["self"] None []) 0]}
                     {["m" := VNumber 1]}) eq_refl eq_refl) as (_ & _ & H').
    exact (H' eq_refl eq_refl).
Defined.

(** X12. Attribute assignment writes the attribute of the receiver and
    yields the value; reading the attribute back gives that value, also
    when the class has a method of that name.  The class of the object,
    the other objects and the frames are untouched.  A receiver that is
    not an object is a type error raised before the value is evaluated. *)
Theorem attribute_assignment_round_trip host k object attr value env s s1 obj :
  evaluate_stmt host k object env s = (s1, Val obj) ->
  (forall o s2 v cell,
     obj = VObject o ->
     evaluate_stmt host k value env s1 = (s2, Val v) ->
     objects s2 !! o = Some cell ->
     let s3 := set_in s2 o attr v in
     evaluate_stmt host (S k) (PiAttributeAssignment object attr value) env s
     = (s3, Val v)
     /\ (forall k' target env',
           evaluate_stmt host k' target env' s3 = (s3, Val (VObject o)) ->
           evaluate_stmt host (S k') (PiAttribute target attr) env' s3
           = (s3, Val v))
     /\ objects s3 !! o
        = Some (Cell (class_name cell) (class_methods cell)
                     (<[attr := v]> (attributes cell)))
     /\ (forall o', o' <> o -> objects s3 !! o' = objects s2 !! o')
     /\ frames s3 = frames s2)
  /\ (type_of obj <> TObject ->
      evaluate_stmt host (S k) (PiAttributeAssignment object attr value) env s
      = (s1, Exn (RuntimeError msg_attributes))).
Proof.
  intros Hobj. split.
  - intros o s2 v cell -> Hvalue Hcell s3.
    assert (Hnew : objects s3 !! o
                   = Some (Cell (class_name cell) (class_methods cell)
                                (<[attr := v]> (attributes cell)))).
    { cbn. now rewrite list_lookup_alter_eq, Hcell. }
    split; [| split; [| split; [exact Hnew | split]]].
    + rewrite evaluate_stmt_S. apply as_runtime_error_val. cbn [dispatch].
      erewrite bind_val by exact Hobj. cbn beta iota.
      erewrite bind_val by exact Hvalue. reflexivity.
    + intros k' target env' Htarget.
      eapply attribute_read_instance; eauto. cbn. apply lookup_insert_eq.
    + intros o' Hne. cbn. now apply list_lookup_alter_ne.
    + reflexivity.
  - intros Hty. rewrite evaluate_stmt_S.
    apply (as_runtime_error_exn _ s s1 (TypeError _)). cbn [dispatch].
    erewrite bind_val by exact Hobj. now destruct obj.
Qed.

Lemma attribute_assignment_round_trip_witness :
  evaluate_stmt sample_host 2
    (PiAttributeAssignment (PiVariable "o") "m" (PiNumber 5)) 0
    shadowing_object_state
  = (set_in shadowing_object_state 0 "m" (VNumber 5), Val (VNumber 5)).
Proof.
  destruct (attribute_assignment_round_trip sample_host 1 (PiVariable "o") "m"
              (PiNumber 5) 0 shadowing_object_state shadowing_object_state
              (VObject 0) eq_refl) as (H & _).
  apply (H 0 shadowing_object_state (VNumber 5)
           (Cell "C" {["m" := Closure (FunctionDef "m" ["self"] None []) 0]}
                 {["m" := VNumber 1]}) eq_refl eq_refl eq_refl).
Defined.

(** ** Binding of parameters *)

Lemma bind_all_cons x names v vals f :
  bind_all (x :: names) (v :: vals) f = bind_all names vals (insert_var x v f).
Proof. reflexivity. Qed.

Lemma bind_all_notin names : forall vals f x,
  x ∉ names -> vars (bind_all names vals f) !! x = vars f !! x.
Proof.
  induction names as [| y names IH]; intros [| v vals] f x Hx;
    try reflexivity.
  rewrite bind_all_cons, IH by (intros H; apply Hx; now right).
  cbn. apply lookup_insert_ne. intros ->. apply Hx. now left.
Qed.

Lemma bind_all_lookup names : forall vals f j x v,
  NoDup names -> names !! j = Some x -> vals !! j = Some v ->
  vars (bind_all names vals f) !! x = Some v.
Proof.
  induction names as [| y names IH]; intros [| w vals] f j x v Hnd Hx Hv;
    try (destruct j; discriminate).
  apply NoDup_cons in Hnd as [Hy Hnd]. rewrite bind_all_cons.
  destruct j as [| j]; cbn in Hx, Hv.
  - injection Hx as ->. injection Hv as ->.
    rewrite bind_all_notin by exact Hy. cbn. apply lookup_insert_eq.
  - eapply IH; eauto.
Qed.


(** X13. With distinct parameter names, a function call binds the declared
    parameters to the arguments one to one, in order: in the frame of the
    call, the [j]-th parameter reads as the [j]-th argument. *)
Theorem parameters_bound_in_order c args s :
  let names := fd_arg_names (funcdef_of c) in
  NoDup names ->
  length names <= length args ->
  (vararg_name (funcdef_of c) = None -> length args <= length names) ->
  (forall vararg, vararg_name (funcdef_of c) = Some vararg ->
                  vararg ∉ names) ->
  let s' := push_frame s (function_frame c args) in
  function_call_env c args s = (s', Val (length (frames s)))
  /\ forall j x v,
       names !! j = Some x -> args !! j = Some v ->
       lookup (length (frames s)) x s' = (s', Val v).
Proof.
  intros names Hnd Hlen Hnova Hva s'. split.
  - now apply function_call_env_fits.
  - intros j x v Hx Hv. apply lookup_top_bound. unfold function_frame.
    fold names. destruct (vararg_name (funcdef_of c)) as [vararg |] eqn:E.
    + cbn. rewrite lookup_insert_ne.
      * eapply bind_all_lookup; eauto.
      * intros ->. apply (Hva x eq_refl). eapply list_elem_of_lookup_2; eauto.
    + eapply bind_all_lookup; eauto.
Qed.

Lemma parameters_bound_in_order_witness :
  lookup 1 "b"
    (push_frame (initial_state sample_host)
       (function_frame two_params [VNumber 1; VNumber 2]))
  = (push_frame (initial_state sample_host)
       (function_frame two_params [VNumber 1; VNumber 2]), Val (VNumber 2)).
Proof.
  assert (Hnd : NoDup ["a"; "b"]).
  { apply NoDup_cons. split; [| apply NoDup_singleton].
    intros H. apply list_elem_of_singleton in H. discriminate H. }
  destruct (parameters_bound_in_order two_params [VNumber 1; VNumber 2]
              (initial_state sample_host) Hnd) as (_ & H).
  - cbn. lia.
  - intros _. cbn. lia.
  - intros vararg Hva. discriminate Hva.
  - exact (H 1 "b" (VNumber 2) eq_refl eq_refl).
Defined.

(** ** Method calls: receiver and arity *)



(** ** A function in its own scope *)

Lemma function_frame_notin c args x :
  x ∉ fd_arg_names (funcdef_of c) ->
  vararg_name (funcdef_of c) <> Some x ->
  vars (function_frame c args) !! x = None.
Proof.
  intros Hx Hva. unfold function_frame.
  destruct (vararg_name (funcdef_of c)) as [vararg |].
  - cbn. rewrite lookup_insert_ne by congruence.
    now rewrite bind_all_notin.
  - now rewrite bind_all_notin.
Qed.

(** X15. A function definition binds, in the current frame, a closure over
    that same frame, and yields the None-value.  So the body of the
    function finds the function under its own name, unless a parameter has
    that name: a function can call itself. *)
Theorem function_definition_is_in_its_own_scope host k fd env s frame args :
  frames s !! env = Some frame ->
  fd_name fd ∉ fd_arg_names fd ->
  vararg_name fd <> Some (fd_name fd) ->
  length (fd_arg_names fd) <= length args ->
  (vararg_name fd = None -> length args <= length (fd_arg_names fd)) ->
  let c := Closure fd env in
  let s1 := bind_in s env (fd_name fd) (VFunctionClosure c) in
  let s2 := push_frame s1 (function_frame c args) in
  evaluate_stmt host (S k) (PiFunctionDef fd) env s = (s1, Val VNone)
  /\ function_call_env c args s1 = (s2, Val (length (frames s1)))
  /\ (forall k',
        evaluate_stmt host (S k') (PiVariable (fd_name fd))
          (length (frames s1)) s2
        = (s2, Val (VFunctionClosure c))).
Proof.
  intros Hframe Hname Hva Hlen Hnova c s1 s2. split; [reflexivity |].
  split; [now apply function_call_env_fits |].
  intros k'. apply evaluate_variable.
  eapply lookup_top_parent.
  - now apply function_frame_notin.
  - apply function_frame_parent.
  - cbn. rewrite list_lookup_alter_eq, Hframe. reflexivity.
  - cbn. apply lookup_insert_eq.
Qed.

Lemma function_definition_is_in_its_own_scope_witness :
  evaluate_stmt sample_host 1 (PiVariable "f") 1
    (push_frame
       (bind_in (initial_state sample_host) 0 "f"
          (VFunctionClosure (Closure (reader "f" "y") 0)))
       (function_frame (Closure (reader "f" "y") 0) []))
  = (push_frame
       (bind_in (initial_state sample_host) 0 "f"
          (VFunctionClosure (Closure (reader "f" "y") 0)))
       (function_frame (Closure (reader "f" "y") 0) []),
     Val (VFunctionClosure (Closure (reader "f" "y") 0))).
Proof.
  destruct (function_definition_is_in_its_own_scope sample_host 0
              (reader "f" "y") 0 (initial_state sample_host)
              (Frame (list_to_map [("/", VPrimitive "/")]) None) [])
    as (_ & _ & H).
  - reflexivity.
  - intros H. apply elem_of_nil in H. exact H.
  - discriminate.
  - cbn. lia.
  - intros _. cbn. lia.
  - exact (H 0).
Defined.

(** ** Call dispatch *)

(** X16. A call evaluates the callee, then all arguments from left to
    right, and only then looks at the callee: an error of an argument wins
    over a callee that cannot be called.  A number, Boolean, string, None,
    list, tuple or object as callee is a type error. *)
Theorem call_evaluates_arguments_first host k function args env s s1 func_val :
  evaluate_stmt host k function env s = (s1, Val func_val) ->
  (forall s2 x,
     eval_elements (evaluate_stmt host k) args env s1 = (s2, Exn x) ->
     evaluate_stmt host (S k) (PiFunctionCall function args) env s
     = (s2, Exn x))
  /\ (forall s2 vs,
        eval_elements (evaluate_stmt host k) args env s1 = (s2, Val vs) ->
        match type_of func_val with
        | TNumber | TBool | TString | TNone | TList | TTuple | TObject => True
        | _ => False
        end ->
        evaluate_stmt host (S k) (PiFunctionCall function args) env s
        = (s2, Exn (RuntimeError msg_not_callable))).
Proof.
  intros Hf. split.
  - intros s2 x Hargs.
    assert (Hx : reraise x = x).
    { clear Hf. revert s1 s2 Hargs.
      induction args as [| a args IH]; intros s1 s2 Hargs; [discriminate |].
      cbn [eval_elements] in Hargs. unfold bind in Hargs.
      destruct (evaluate_stmt host k a env s1) as [s3 [v | e |]] eqn:Ea;
        try discriminate.
      - destruct (eval_elements (evaluate_stmt host k) args env s3)
          as [s4 [vs | e |]] eqn:Eargs; try discriminate.
        injection Hargs as _ <-. eapply IH; eauto.
      - injection Hargs as _ <-.
        eapply evaluate_stmt_exn_fixed; eauto. }
    rewrite evaluate_stmt_S.
    erewrite as_runtime_error_exn; [now rewrite Hx |].
    cbn [dispatch]. unfold _evaluate_function_call.
    erewrite bind_val by exact Hf. now erewrite bind_exn by exact Hargs.
  - intros s2 vs Hargs Hkind. rewrite evaluate_stmt_S.
    apply (as_runtime_error_exn _ s s2 (TypeError _)). cbn [dispatch].
    rewrite (call_dispatch _ _ _ _ _ _ _ _ _ _ Hf Hargs).
    now destruct func_val.
Qed.

Lemma call_evaluates_arguments_first_witness :
  evaluate_stmt sample_host 3
    (PiFunctionCall (PiNumber 1) [PiNumber 2; PiUnknown "arg"]) 0
    (initial_state sample_host)
  = (initial_state sample_host, Exn (RuntimeError (msg_unsupported "arg")))
  /\ evaluate_stmt sample_host 3
       (PiFunctionCall (PiNumber 1) [PiNumber 2]) 0
       (initial_state sample_host)
     = (initial_state sample_host, Exn (RuntimeError msg_not_callable)).
Proof.
  split.
  - destruct (call_evaluates_arguments_first sample_host 2 (PiNumber 1)
                [PiNumber 2; PiUnknown "arg"] 0 (initial_state sample_host)
                (initial_state sample_host) (VNumber 1) eq_refl) as (H & _).
    exact (H (initial_state sample_host)
             (RuntimeError (msg_unsupported "arg")) eq_refl).
  - destruct (call_evaluates_arguments_first sample_host 2 (PiNumber 1)
                [PiNumber 2] 0 (initial_state sample_host)
                (initial_state sample_host) (VNumber 1) eq_refl) as (_ & H).
    exact (H (initial_state sample_host) [VNumber 2] eq_refl I).
Defined.

(** ** Operators and primitives *)

(** X17. A binary operation is the call of whatever the operator's name is
    bound to, with the two operands as arguments: it has the outcome of
    that call.  With the name bound to a primitive, that is the
    primitive's outcome on the operand values (its catchable errors as the
    uniform failure); with the name bound to a function of the program, it
    is the call of that function. *)
Theorem binary_operation_is_call host k lhs operator rhs env s :
  evaluate_stmt host (S (S k)) (PiBinaryOperation lhs operator rhs) env s
  = evaluate_stmt host (S k)
      (PiFunctionCall (PiVariable operator) [lhs; rhs]) env s
  /\ (forall callee s1 a s2 b,
        lookup env operator s = (s, Val callee) ->
        evaluate_stmt host k lhs env s = (s1, Val a) ->
        evaluate_stmt host k rhs env s1 = (s2, Val b) ->
        (forall name, callee = VPrimitive name ->
           evaluate_stmt host (S (S (S k)))
             (PiBinaryOperation lhs operator rhs) env s
           = as_runtime_error (call_primitive host name [a; b]) s2)
        /\ (forall c, callee = VFunctionClosure c ->
              evaluate_stmt host (S (S (S k)))
                (PiBinaryOperation lhs operator rhs) env s
              = as_runtime_error
                  (_execute_function_call (evaluate_stmt host (S k)) c [a; b]
                     env) s2)).
Proof.
  split.
  - rewrite evaluate_stmt_S. cbn [dispatch].
    apply as_runtime_error_evaluate_stmt.
  - intros callee s1 a s2 b Hop Ha Hb.
    assert (Hargs : eval_elements (evaluate_stmt host (S k)) [lhs; rhs] env s
                    = (s2, Val [a; b])).
    { cbn [eval_elements].
      erewrite bind_val
        by (apply (evaluate_stmt_more_fuel host k (S k) lhs env); [lia | exact Ha | discriminate]).
      erewrite bind_val; [reflexivity |].
      erewrite bind_val
        by (apply (evaluate_stmt_more_fuel host k (S k) rhs env); [lia | exact Hb | discriminate]).
      reflexivity. }
    assert (Hcallee : evaluate_stmt host (S k) (PiVariable operator) env s
                      = (s, Val callee)) by now apply evaluate_variable.
    assert (Hcall : evaluate_stmt host (S (S (S k)))
                      (PiBinaryOperation lhs operator rhs) env s
                    = as_runtime_error
                        (_evaluate_function_call host
                           (evaluate_stmt host (S k)) (PiVariable operator)
                           [lhs; rhs] env) s).
    { rewrite evaluate_stmt_S. cbn [dispatch].
      now rewrite as_runtime_error_evaluate_stmt. }
    split.
    + intros name ->. rewrite Hcall. unfold as_runtime_error.
      now rewrite (call_dispatch _ _ _ _ _ _ _ _ _ _ Hcallee Hargs).
    + intros c ->. rewrite Hcall. unfold as_runtime_error.
      now rewrite (call_dispatch _ _ _ _ _ _ _ _ _ _ Hcallee Hargs).
Qed.

Lemma binary_operation_is_call_witness :
  evaluate_stmt sample_host 4
    (PiBinaryOperation (PiNumber 6) "/" (PiNumber 3)) 0
    (initial_state sample_host)
  = (initial_state sample_host, Val (VNumber (6 / 3))).
Proof.
  destruct (binary_operation_is_call sample_host 1 (PiNumber 6) "/"
              (PiNumber 3) 0 (initial_state sample_host)) as (_ & H).
  destruct (H (VPrimitive "/") (initial_state sample_host) (VNumber 6)
              (initial_state sample_host) (VNumber 3) eq_refl eq_refl eq_refl)
    as (H' & _).
  rewrite (H' "/" eq_refl). reflexivity.
Defined.

(** X18. The root frame of [initial_env] binds every name of the primitive
    table to its primitive and no other name. *)
Theorem initial_env_binds_primitives host name k :
  (name ∈ primitive_names host ->
   evaluate_stmt host (S k) (PiVariable name) initial_env (initial_state host)
   = (initial_state host, Val (VPrimitive name)))
  /\ (name ∉ primitive_names host ->
      evaluate_stmt host (S k) (PiVariable name) initial_env
        (initial_state host)
      = (initial_state host, Exn (NameLookupError name))).
Proof.
  split; intros Hname.
  - apply evaluate_variable. eapply lookup_own_binding; [reflexivity |].
    cbn. apply elem_of_list_to_map_1'.
    + intros y Hy. apply list_elem_of_fmap in Hy as (n & Hn & _).
      now injection Hn as -> ->.
    + apply list_elem_of_fmap. now exists name.
  - rewrite evaluate_stmt_S.
    apply (as_runtime_error_exn _ _ _ (NameLookupError name)).
    cbn [dispatch]. unfold lookup. cbn.
    rewrite (not_elem_of_list_to_map_1 _ name); [reflexivity |].
    rewrite <- list_fmap_compose. intros H.
    apply list_elem_of_fmap in H as (n & -> & Hn). now apply Hname.
Qed.

Lemma initial_env_binds_primitives_witness :
  evaluate_stmt sample_host 1 (PiVariable "/") initial_env
    (initial_state sample_host)
  = (initial_state sample_host, Val (VPrimitive "/"))
  /\ evaluate_stmt sample_host 1 (PiVariable "+") initial_env
       (initial_state sample_host)
     = (initial_state sample_host, Exn (NameLookupError "+")).
Proof.
  split.
  - apply (initial_env_binds_primitives sample_host "/" 0).
    apply list_elem_of_singleton. reflexivity.
  - apply (initial_env_binds_primitives sample_host "+" 0).
    intros H. apply list_elem_of_singleton in H. discriminate H.
Defined.

(** ** The store only grows *)

Lemma frame_kept_refl f : frame_kept f f.
Proof. split; [reflexivity | set_solver]. Qed.

Lemma cell_kept_refl c : cell_kept c c.
Proof. split; [| split]; [reflexivity | reflexivity | set_solver]. Qed.

Lemma store_extends_refl s : store_extends s s.
Proof.
  split; eauto using frame_kept_refl, cell_kept_refl.
Qed.

Lemma store_extends_trans s1 s2 s3 :
  store_extends s1 s2 -> store_extends s2 s3 -> store_extends s1 s3.
Proof.
  intros [Hf12 Ho12] [Hf23 Ho23]. split.
  - intros l f Hl. destruct (Hf12 l f Hl) as (f2 & Hl2 & Hp2 & Hd2).
    destruct (Hf23 l f2 Hl2) as (f3 & Hl3 & Hp3 & Hd3).
    exists f3. split; [exact Hl3 |]. split; [congruence | set_solver].
  - intros o c Ho. destruct (Ho12 o c Ho) as (c2 & Ho2 & Hn2 & Hm2 & Hd2).
    destruct (Ho23 o c2 Ho2) as (c3 & Ho3 & Hn3 & Hm3 & Hd3).
    exists c3. split; [exact Ho3 |].
    split; [congruence | split; [congruence | set_solver]].
Qed.

Lemma keeps_ret {A} (a : A) : keeps_store (ret a).
Proof. intros s s' r H. injection H as <- _. apply store_extends_refl. Qed.

Lemma keeps_raise {A} e : keeps_store (@raise A e).
Proof. intros s s' r H. injection H as <- _. apply store_extends_refl. Qed.

Lemma keeps_timeout {A} : keeps_store (@timeout A).
Proof. intros s s' r H. injection H as <- _. apply store_extends_refl. Qed.

Lemma keeps_bind {A B} (m : M A) (k : A -> M B) :
  keeps_store m -> (forall a, keeps_store (k a)) -> keeps_store (bind m k).
Proof.
  intros Hm Hk s s' r. unfold bind.
  destruct (m s) as [s1 [a | e |]] eqn:E; intros H.
  - eapply store_extends_trans; [eapply Hm | eapply Hk]; eauto.
  - injection H as <- _. eapply Hm; eauto.
  - injection H as <- _. eapply Hm; eauto.
Qed.

Lemma keeps_try_except {A} (m : M A) (h : exn -> option (M A)) :
  keeps_store m ->
  (forall e k, h e = Some k -> keeps_store k) ->
  keeps_store (try_except m h).
Proof.
  intros Hm Hh s s' r. unfold try_except.
  destruct (m s) as [s1 [a | e |]] eqn:E; intros H.
  - injection H as <- _. eapply Hm; eauto.
  - destruct (h e) as [k |] eqn:Ek.
    + eapply store_extends_trans; [eapply Hm | eapply Hh]; eauto.
    + injection H as <- _. eapply Hm; eauto.
  - injection H as <- _. eapply Hm; eauto.
Qed.

Lemma keeps_as_runtime_error {A} (m : M A) :
  keeps_store m -> keeps_store (as_runtime_error m).
Proof.
  intros Hm s s' r. unfold as_runtime_error.
  destruct (m s) as [s1 [a | e |]] eqn:E; intros H;
    injection H as <- _; eapply Hm; eauto.
Qed.

Lemma keeps_EnvFrame_new p : keeps_store (EnvFrame_new p).
Proof.
  intros s s' r H. injection H as <- _. split; cbn.
  - intros l f Hl. exists f. split; [| apply frame_kept_refl].
    now apply lookup_app_l_Some.
  - eauto using cell_kept_refl.
Qed.

Lemma keeps_insert env name v : keeps_store (insert env name v).
Proof.
  intros s s' r H. injection H as <- _. split; cbn.
  - intros l f Hl. destruct (decide (env = l)) as [-> | Hne].
    + exists (insert_var name v f).
      split; [now rewrite list_lookup_alter_eq, Hl |].
      split; [reflexivity |]. cbn. rewrite dom_insert_L. set_solver.
    + exists f. split; [| apply frame_kept_refl].
      now rewrite list_lookup_alter_ne.
  - eauto using cell_kept_refl.
Qed.

Lemma keeps_lookup env name : keeps_store (lookup env name).
Proof.
  intros s s' r. unfold lookup.
  destruct (lookup_from _ _ _ _); intros H; injection H as <- _;
    apply store_extends_refl.
Qed.

Lemma keeps_VObject_new name methods : keeps_store (VObject_new name methods).
Proof.
  intros s s' r H. injection H as <- _. split; cbn.
  - eauto using frame_kept_refl.
  - intros o c Ho. exists c. split; [| apply cell_kept_refl].
    now apply lookup_app_l_Some.
Qed.

Lemma keeps_get_object o : keeps_store (get_object o).
Proof.
  intros s s' r. unfold get_object.
  destruct (objects s !! o); intros H; injection H as <- _;
    apply store_extends_refl.
Qed.

Lemma keeps_set_attribute o attr v : keeps_store (set_attribute o attr v).
Proof.
  intros s s' r H. injection H as <- _. split; cbn.
  - eauto using frame_kept_refl.
  - intros o' c Ho. destruct (decide (o = o')) as [-> | Hne].
    + eexists. split; [now rewrite list_lookup_alter_eq, Ho |].
      split; [reflexivity | split; [reflexivity |]].
      cbn. rewrite dom_insert_L. set_solver.
    + exists c. split; [| apply cell_kept_refl].
      now rewrite list_lookup_alter_ne.
Qed.

Lemma keeps_check_type host v t : keeps_store (check_type host v t).
Proof.
  unfold check_type. destruct (bool_decide _);
    [apply keeps_ret | apply keeps_raise].
Qed.

Lemma keeps_check_valid v : keeps_store (_check_valid_piandor_type v).
Proof.
  unfold _check_valid_piandor_type.
  destruct (type_of v); first [apply keeps_ret | apply keeps_raise].
Qed.

Lemma keeps_subscript_of {A} (l : list A) i kind :
  keeps_store (subscript_of l i kind).
Proof.
  unfold subscript_of. destruct (py_index l i);
    [apply keeps_ret | apply keeps_raise].
Qed.

Lemma keeps_loop_body (m : M EnvValue) last_value :
  keeps_store m -> keeps_store (loop_body m last_value).
Proof.
  intros Hm. unfold loop_body. apply keeps_try_except.
  - apply keeps_bind; [exact Hm | intros; apply keeps_ret].
  - intros [] k H; try discriminate; injection H as <-; apply keeps_ret.
Qed.

Lemma keeps_catch_return (m : M EnvValue) :
  keeps_store m -> keeps_store (catch_return m).
Proof.
  intros Hm. unfold catch_return. apply keeps_try_except; [exact Hm |].
  intros [] k H; try discriminate. injection H as <-. apply keeps_ret.
Qed.

Lemma keeps_bind_params call_env names : forall i args missing,
  keeps_store (bind_params call_env names i args missing).
Proof.
  induction names as [| x names IH]; intros i args missing;
    cbn [bind_params]; [apply keeps_ret |].
  destruct (args !! i); [| apply keeps_raise].
  apply keeps_bind; [apply keeps_insert | intros; apply IH].
Qed.

Lemma keeps_function_call_env c args : keeps_store (function_call_env c args).
Proof.
  unfold function_call_env.
  apply keeps_bind; [apply keeps_EnvFrame_new |]. intros call_env.
  apply keeps_bind; [apply keeps_bind_params |]. intros _.
  apply keeps_bind; [| intros; apply keeps_ret].
  destruct (vararg_name _); [apply keeps_insert |].
  destruct (Nat.ltb _ _); [apply keeps_raise | apply keeps_ret].
Qed.

Lemma keeps_method_call_env function instance args :
  keeps_store (method_call_env function instance args).
Proof.
  unfold method_call_env.
  apply keeps_bind; [apply keeps_EnvFrame_new |]. intros call_env.
  destruct (fd_arg_names _) as [| first names]; [apply keeps_raise |].
  destruct (negb _); [apply keeps_raise |].
  apply keeps_bind; [apply keeps_insert |]. intros _.
  apply keeps_bind; [apply keeps_bind_params |]. intros _.
  apply keeps_bind; [| intros; apply keeps_ret].
  destruct (Nat.ltb _ _); [apply keeps_raise | apply keeps_ret].
Qed.

Section KeepsStore.
Context (host : Host).
Hypothesis Hprim :
  forall name args, keeps_store (call_primitive host name args).
Variable ev : PiStatement -> loc -> M EnvValue.
Hypothesis Hev : forall node env, keeps_store (ev node env).

Lemma keeps_eval_elements es env : keeps_store (eval_elements ev es env).
Proof.
  induction es as [| e es IH]; cbn [eval_elements]; [apply keeps_ret |].
  apply keeps_bind; [apply Hev |]. intros v.
  apply keeps_bind; [apply IH | intros; apply keeps_ret].
Qed.

Lemma keeps_run_stmts stmts env : forall last_value,
  keeps_store (run_stmts ev stmts env last_value).
Proof.
  induction stmts as [| stmt stmts IH]; intros last_value; cbn [run_stmts];
    [apply keeps_ret |].
  apply keeps_bind; [apply Hev | intros; apply IH].
Qed.

Lemma keeps_evaluate node env : keeps_store (evaluate ev node env).
Proof.
  unfold evaluate. apply keeps_as_runtime_error.
  destruct node; [apply keeps_run_stmts | apply Hev].
Qed.

Lemma keeps_while_loop n condition body env : forall last_value,
  keeps_store (while_loop host ev n condition body env last_value).
Proof.
  induction n as [| n IH]; intros last_value; cbn [while_loop];
    [apply keeps_timeout |].
  apply keeps_bind; [apply Hev |]. intros c.
  apply keeps_bind; [apply keeps_check_type |]. intros c'.
  destruct (negb (truthy c')); [apply keeps_ret |].
  apply keeps_bind; [apply keeps_loop_body, keeps_evaluate |].
  intros [v |]; [apply IH | apply keeps_ret].
Qed.

Lemma keeps_for_loop items var body env : forall last_value,
  keeps_store (for_loop ev items var body env last_value).
Proof.
  induction items as [| item items IH]; intros last_value; cbn [for_loop];
    [apply keeps_ret |].
  apply keeps_bind; [apply keeps_insert |]. intros _.
  apply keeps_bind; [apply keeps_loop_body, keeps_evaluate |].
  intros [v |]; [apply IH | apply keeps_ret].
Qed.

Lemma keeps_execute_function_call c args env :
  keeps_store (_execute_function_call ev c args env).
Proof.
  unfold _execute_function_call.
  apply keeps_bind; [apply keeps_function_call_env |]. intros call_env.
  apply keeps_catch_return, keeps_run_stmts.
Qed.

Lemma keeps_execute_method_call function instance args env :
  keeps_store (_execute_method_call ev function instance args env).
Proof.
  unfold _execute_method_call.
  apply keeps_bind; [apply keeps_method_call_env |]. intros call_env.
  apply keeps_catch_return.
  apply keeps_bind; [apply keeps_run_stmts |]. intros result.
  destruct (String.eqb _ _); apply keeps_ret.
Qed.

Lemma keeps_dispatch k node env : keeps_store (dispatch host ev k node env).
Proof.
  destruct node; cbn [dispatch];
    try apply keeps_ret; try apply keeps_raise; try apply Hev.
  - apply keeps_bind; [apply keeps_eval_elements | intros; apply keeps_ret].
  - apply keeps_bind; [apply keeps_eval_elements | intros; apply keeps_ret].
  - apply keeps_lookup.
  - apply keeps_bind; [apply Hev |]. intros v.
    apply keeps_bind; [apply keeps_insert | intros; apply keeps_ret].
  - apply keeps_bind; [apply Hev |]. intros c.
    apply keeps_bind; [apply keeps_check_type |]. intros c'.
    apply keeps_evaluate.
  - apply keeps_bind; [apply Hev |]. intros v.
    apply keeps_bind; [apply keeps_check_valid | intros; apply keeps_ret].
  - apply keeps_bind; [apply Hev |]. intros l.
    apply keeps_bind; [apply keeps_check_valid |]. intros _.
    destruct (negb (truthy l)); [apply keeps_ret |].
    apply keeps_bind; [apply Hev |]. intros r.
    apply keeps_bind; [apply keeps_check_valid | intros; apply keeps_ret].
  - apply keeps_bind; [apply Hev |]. intros l.
    apply keeps_bind; [apply keeps_check_valid |]. intros _.
    destruct (truthy l); [apply keeps_ret |].
    apply keeps_bind; [apply Hev |]. intros r.
    apply keeps_bind; [apply keeps_check_valid | intros; apply keeps_ret].
  - apply keeps_while_loop.
  - apply keeps_bind; [apply keeps_insert | intros; apply keeps_ret].
  - apply keeps_bind; [apply Hev | intros; apply keeps_raise].
  - unfold _evaluate_function_call.
    apply keeps_bind; [apply Hev |]. intros fv.
    apply keeps_bind; [apply keeps_eval_elements |]. intros vs.
    destruct fv; try apply keeps_raise.
    + apply keeps_execute_function_call.
    + apply keeps_execute_method_call.
    + apply keeps_bind; [apply keeps_VObject_new |]. intros o.
      apply keeps_bind; [| intros; apply keeps_ret].
      destruct (_ !! _); [| apply keeps_ret].
      apply keeps_bind;
        [apply keeps_execute_method_call | intros; apply keeps_ret].
    + apply Hprim.
  - unfold _evaluate_for.
    apply keeps_bind; [apply Hev |]. intros it.
    destruct it; try apply keeps_raise; apply keeps_for_loop.
  - unfold _evaluate_in.
    apply keeps_bind; [apply Hev |]. intros c.
    apply keeps_bind; [apply Hev |]. intros e.
    destruct c; try apply keeps_raise; try apply keeps_ret.
    destruct e; apply keeps_ret.
  - unfold _evaluate_subscript.
    apply keeps_bind; [apply Hev |]. intros c.
    apply keeps_bind; [apply Hev |]. intros i.
    destruct c; try apply keeps_raise.
    + apply keeps_bind; [apply keeps_check_type |]. intros idx.
      apply keeps_bind; [apply keeps_subscript_of | intros; apply keeps_ret].
    + apply keeps_bind; [apply keeps_check_type |]. intros idx.
      apply keeps_subscript_of.
    + apply keeps_bind; [apply keeps_check_type |]. intros idx.
      apply keeps_subscript_of.
  - apply keeps_bind; [apply keeps_insert | intros; apply keeps_ret].
  - apply keeps_bind; [apply Hev |]. intros obj.
    destruct obj; try apply keeps_raise.
    apply keeps_bind; [apply keeps_get_object |]. intros cell.
    destruct (attributes cell !! attr); [apply keeps_ret |].
    destruct (class_methods cell !! attr); [apply keeps_ret | apply keeps_raise].
  - apply keeps_bind; [apply Hev |]. intros obj.
    destruct obj; try apply keeps_raise.
    apply keeps_bind; [apply Hev |]. intros v.
    apply keeps_bind; [apply keeps_set_attribute | intros; apply keeps_ret].
Qed.

End KeepsStore.

Lemma keeps_evaluate_stmt host :
  (forall name args, keeps_store (call_primitive host name args)) ->
  forall fuel node env, keeps_store (evaluate_stmt host fuel node env).
Proof.
  intros Hprim. induction fuel as [| k IH]; intros node env.
  - apply keeps_timeout.
  - cbn [evaluate_stmt]. apply keeps_as_runtime_error.
    now apply keeps_dispatch.
Qed.

Lemma store_extends_length s s' :
  store_extends s s' ->
  length (frames s) <= length (frames s')
  /\ length (objects s) <= length (objects s').
Proof.
  intros [Hf Ho]. split.
  - destruct (frames s) as [| f0 fs] eqn:E using rev_ind; [cbn; lia |].
    destruct (Hf (length fs) f0) as (f' & Hl & _).
    + now apply list_lookup_middle.
    + apply lookup_lt_Some in Hl. rewrite length_app. cbn. lia.
  - destruct (objects s) as [| c0 cs] eqn:E using rev_ind; [cbn; lia |].
    destruct (Ho (length cs) c0) as (c' & Hl & _).
    + now apply list_lookup_middle.
    + apply lookup_lt_Some in Hl. rewrite length_app. cbn. lia.
Qed.

(** X19. Whatever an evaluation does and however it ends, the store only
    grows, provided the primitives of the host behave so: every frame
    stays at its handle with the same parent and without losing a binding,
    every object stays at its handle with the same class and without
    losing an attribute, and no frame or object is removed. *)
Theorem evaluation_only_extends_store host fuel node env s s' r :
  (forall name args, keeps_store (call_primitive host name args)) ->
  evaluate_stmt host fuel node env s = (s', r) ->
  (forall l f, frames s !! l = Some f ->
     exists f', frames s' !! l = Some f' /\ parent f' = parent f
                /\ dom (vars f) ⊆ dom (vars f'))
  /\ (forall o c, objects s !! o = Some c ->
        exists c', objects s' !! o = Some c'
                   /\ class_name c' = class_name c
                   /\ class_methods c' = class_methods c
                   /\ dom (attributes c) ⊆ dom (attributes c'))
  /\ length (frames s) <= length (frames s')
  /\ length (objects s) <= length (objects s').
Proof.
  intros Hprim Heval.
  pose proof (keeps_evaluate_stmt host Hprim fuel node env s s' r Heval)
    as Hext.
  destruct (store_extends_length s s' Hext) as [Hlf Hlo].
  destruct Hext as [Hf Ho]. repeat split; auto.
Qed.

Lemma sample_host_keeps_store name args :
  keeps_store (call_primitive sample_host name args).
Proof.
  cbn. destruct (String.eqb name "/"); [| apply keeps_raise].
  unfold sample_divide.
  repeat match goal with
         | |- keeps_store (match ?x with _ => _ end) => destruct x
         | |- keeps_store (if ?x then _ else _) => destruct x
         end; first [apply keeps_ret | apply keeps_raise].
Qed.

Lemma evaluation_only_extends_store_witness :
  length (frames (initial_state sample_host))
  <= length (frames (evaluate_stmt sample_host 4
                       (PiFunctionCall (PiVariable "C") []) 0
                       returning_init_state).1).
Proof.
  destruct (evaluate_stmt sample_host 4 (PiFunctionCall (PiVariable "C") [])
              0 returning_init_state) as [s' r] eqn:E.
  destruct (evaluation_only_extends_store sample_host 4
              (PiFunctionCall (PiVariable "C") []) 0 returning_init_state
              s' r sample_host_keeps_store E) as (_ & _ & H & _).
  exact H.
Defined.

(** ** Subscripts: kinds and positions from the front *)



(** ** Instantiation with an initializer *)

Lemma eval_elements_one ev arg env s s' v :
  ev arg env s = (s', Val v) ->
  eval_elements ev [arg] env s = (s', Val [v]).
Proof.
  intros H. cbn [eval_elements]. now erewrite bind_val by exact H.
Qed.

(** X21. The receiver of the initializer is the new object itself: after
    instantiating a class whose [__init__(self, p)] executes [self.a = p],
    the object that the call returns holds the argument as attribute [a]. *)
Theorem initializer_writes_new_object host k function arg env s s1 s2
    name methods v p a captured :
  evaluate_stmt host (S (S k)) function env s
  = (s1, Val (VClassDef name methods)) ->
  evaluate_stmt host (S (S k)) arg env s1 = (s2, Val v) ->
  methods !! "__init__" = Some (storing_init p a captured) ->
  p <> "self" ->
  let o := length (objects s2) in
  let s3 :=
    set_in (push_frame (push_object s2 name methods)
              (method_frame (storing_init p a captured) o [v])) o a v in
  evaluate_stmt host (S (S (S k))) (PiFunctionCall function [arg]) env s
  = (s3, Val (VObject o))
  /\ objects s3 !! o = Some (Cell name methods {[a := v]})
  /\ (forall k' target env',
        evaluate_stmt host k' target env' s3 = (s3, Val (VObject o)) ->
        evaluate_stmt host (S k') (PiAttribute target a) env' s3
        = (s3, Val v)).
Proof.
  intros Hf Harg Hinit Hp o s3.
  set (init := storing_init p a captured) in *.
  set (s_new := push_object s2 name methods).
  set (s_call := push_frame s_new (method_frame init o [v])).
  set (call_env := length (frames s_new)).
  assert (Hcell : objects s3 !! o = Some (Cell name methods {[a := v]})).
  { unfold s3, set_in. cbn [objects]. rewrite list_lookup_alter_eq.
    unfold o. cbn [push_frame push_object objects].
    rewrite list_lookup_middle by reflexivity. reflexivity. }
  split; [| split; [exact Hcell |]].
  - assert (Henv : method_call_env init o [v] s_new = (s_call, Val call_env))
      by (apply method_call_env_fits with (names := [p]); reflexivity).
    assert (Hself : evaluate_stmt host (S k) (PiVariable "self") call_env
                      s_call = (s_call, Val (VObject o))).
    { apply evaluate_variable, lookup_top_bound.
      unfold method_frame, init, storing_init. cbn [funcdef_of fd_arg_names tail].
      rewrite bind_all_cons. cbn [bind_all zip foldl zip_with vars insert_var].
      rewrite lookup_insert_ne by exact Hp. apply lookup_insert_eq. }
    assert (Hparam : evaluate_stmt host (S k) (PiVariable p) call_env s_call
                     = (s_call, Val v)).
    { apply evaluate_variable, lookup_top_bound.
      unfold method_frame, init, storing_init. cbn [funcdef_of fd_arg_names tail].
      rewrite bind_all_cons. cbn [bind_all zip foldl zip_with vars insert_var].
      apply lookup_insert_eq. }
    assert (Hassign : evaluate_stmt host (S (S k))
                        (PiAttributeAssignment (PiVariable "self") a
                           (PiVariable p)) call_env s_call
                      = (s3, Val v)).
    { rewrite evaluate_stmt_S. apply as_runtime_error_val. cbn [dispatch].
      erewrite bind_val by exact Hself. cbn beta iota.
      erewrite bind_val by exact Hparam. reflexivity. }
    assert (Hcall : _execute_method_call (evaluate_stmt host (S (S k))) init o
                      [v] env s_new = (s3, Val VNone)).
    { rewrite (_execute_method_call_body _ _ _ _ _ _ _ _ Henv).
      unfold init, storing_init. cbn [funcdef_of fd_body fd_name run_stmts].
      erewrite bind_val by exact Hassign. reflexivity. }
    rewrite evaluate_stmt_S. apply as_runtime_error_val. cbn [dispatch].
    rewrite (call_dispatch _ _ _ _ _ _ _ _ _ _ Hf
               (eval_elements_one _ _ _ _ _ _ Harg)).
    erewrite bind_val by apply VObject_new_eq. rewrite Hinit.
    fold o s_new init. unfold bind at 1. unfold bind at 1.
    now rewrite Hcall.
  - intros k' target env' Htarget.
    eapply attribute_read_instance; eauto. apply lookup_insert_eq.
Qed.

Lemma initializer_writes_new_object_witness :
  (evaluate_stmt sample_host 3 (PiFunctionCall (PiVariable "C") [PiNumber 5])
     0 storing_class_state).2
  = Val (VObject 0)
  /\ objects (evaluate_stmt sample_host 3
                (PiFunctionCall (PiVariable "C") [PiNumber 5]) 0
                storing_class_state).1 !! 0
     = Some (Cell "C" {["__init__" := storing_init "p" "a" 0]}
                  {["a" := VNumber 5]}).
Proof.
  destruct (initializer_writes_new_object sample_host 0 (PiVariable "C")
              (PiNumber 5) 0 storing_class_state storing_class_state
              storing_class_state "C"
              {["__init__" := storing_init "p" "a" 0]} (VNumber 5) "p" "a" 0
              eq_refl eq_refl eq_refl) as (Hcall & Hcell & _);
    [discriminate |].
  rewrite Hcall. split; [reflexivity | exact Hcell].
Defined.
